(** * Elo-Python: the rating engine of [elo.py], embedded and verified

    The class [Elo] of [src/elo.py] keeps a dictionary from player names to
    ratings and a list of recorded matches.  Its methods are translated
    one by one into a small state / output / exception monad.

    Numbers.  Python's ratings and scores are [int]s and binary floats;
    a finite one is a real number, and the store holds reals ([R]).  The
    methods are read twice.  First with exact arithmetic: [10 ** x] is
    [Rpower 10 x], true division is [/] on [R], nothing is rounded and
    nothing overflows.  Then, in [Module Machine], with every numeric
    operation, builtin and library call taken from a [runtime], so that
    an operation may round its result as it likes and may raise
    [OverflowError] or [ZeroDivisionError]; what is proved there holds
    for every runtime, the one of binary floats among them.  The exact
    reading is the machine reading at the runtime [Machine.exact].  The
    membership test [score1 not in (1, 0.5, 0)] is equality on [R].

    Dictionaries.  A Python [dict] keeps its keys in insertion order and
    [print_rating] observes that order through the stable sort, so the
    dictionary is an association list in insertion order. *)

From Stdlib Require Import Reals Lra List String Ascii Bool NArith ZArith.
From Stdlib Require Import Permutation Sorted.
Import ListNotations.

Open Scope string_scope.
Open Scope list_scope.
Open Scope R_scope.

(** ** Dictionaries with string keys, in insertion order *)

Module Dict.

Definition dict := list (string * R).

(** [d[k]], with [None] where Python raises [KeyError]. *)
Fixpoint get (k : string) (d : dict) : option R :=
  match d with
  | [] => None
  | (k', v) :: d' => if String.eqb k k' then Some v else get k d'
  end.

(** [k in d] *)
Definition mem (k : string) (d : dict) : bool :=
  match get k d with Some _ => true | None => false end.

(** [d[k] = v]: an existing key keeps its position, a new key goes last. *)
Fixpoint set (k : string) (v : R) (d : dict) : dict :=
  match d with
  | [] => [(k, v)]
  | (k', v') :: d' =>
      if String.eqb k k' then (k', v) :: d' else (k', v') :: set k v d'
  end.

(** [d.keys()] and [d.items()] *)
Definition keys (d : dict) : list string := map fst d.
Definition items (d : dict) : list (string * R) := d.

End Dict.

(** ** The store, exceptions and printed output *)

(** The attributes of an [Elo] instance. *)
Record Elo : Type := mkElo {
  players : Dict.dict;
  initial_rating : R;
  k_factor : R;
  matches : list (string * string * R)
}.

Definition with_players (self : Elo) (d : Dict.dict) : Elo :=
  mkElo d (initial_rating self) (k_factor self) (matches self).

Definition with_matches (self : Elo) (m : list (string * string * R)) : Elo :=
  mkElo (players self) (initial_rating self) (k_factor self) m.

(** The Python exceptions the methods can raise.  [ExternalError] stands
    for what comes out of a collaborator outside the class (the file
    system, the text decoder, matplotlib), named by its type. *)
Inductive exn : Type :=
| KeyError (key : string)
| IndexError
| ValueError
| UnboundLocalError
| FileNotFoundError
| OverflowError
| ZeroDivisionError
| ExternalError (type_name : string).

(** What the methods hand to [print] (and, for the chart, to matplotlib).
    The f-strings are kept as structured values. *)
Inductive event : Type :=
| WarnExists (name : string)
| WarnInvalid (player1 player2 : string) (score1 : R)
| PrintExn (e : exn)
| PrintLine (s : string)
| PrintRatings (players_ratings : list (string * R))
| BarChart (names : list string) (ratings : list R) (save_path : string).

Inductive res (A : Type) : Type :=
| Ok (a : A)
| Raise (e : exn).
Arguments Ok {A} a.
Arguments Raise {A} e.

(** Running a method on a store gives a value or an exception, the store
    as the method left it (mutations made before an exception stay), and
    what was printed. *)
Record outcome (A : Type) : Type := mkOut {
  value : res A;
  final : Elo;
  printed : list event
}.
Arguments mkOut {A} value final printed.
Arguments value {A} o.
Arguments final {A} o.
Arguments printed {A} o.

Definition M (A : Type) : Type := Elo -> outcome A.

Definition ret {A : Type} (a : A) : M A :=
  fun self => mkOut (Ok a) self [].

Definition bind {A B : Type} (m : M A) (f : A -> M B) : M B :=
  fun self =>
    let o := m self in
    match value o with
    | Raise e => mkOut (Raise e) (final o) (printed o)
    | Ok a =>
        let o' := f a (final o) in
        mkOut (value o') (final o') (printed o ++ printed o')
    end.

Notation "x <- m ;; k" := (bind m (fun x => k))
  (at level 61, m at next level, right associativity).
Notation "m ;; k" := (bind m (fun _ => k))
  (at level 61, right associativity).

Definition raise {A : Type} (e : exn) : M A :=
  fun self => mkOut (Raise e) self [].

Definition print (ev : event) : M unit :=
  fun self => mkOut (Ok tt) self [ev].

Definition get_self : M Elo :=
  fun self => mkOut (Ok self) self [].

Definition put_self (self' : Elo) : M unit :=
  fun _ => mkOut (Ok tt) self' [].

(** [try: body  except Exception as e: print(e)] *)
Definition try_print (body : M unit) : M unit :=
  fun self =>
    let o := body self in
    match value o with
    | Ok a => o
    | Raise e => mkOut (Ok tt) (final o) (printed o ++ [PrintExn e])
    end.

(** [self.players[name]] as an expression. *)
Definition players_getitem (name : string) : M R :=
  self <- get_self ;;
  match Dict.get name (players self) with
  | Some r => ret r
  | None => raise (KeyError name)
  end.

(** [self.players[name] = r] *)
Definition players_setitem (name : string) (r : R) : M unit :=
  self <- get_self ;;
  put_self (with_players self (Dict.set name r (players self))).

(** ** The methods of [Elo] *)

(** [Elo(players, initial_rating, k_factor)]: the dict comprehension
    assigns [initial_rating] to each name in turn. *)
Definition Elo_init (names : list string) (initial k : R) : Elo :=
  mkElo (fold_left (fun d name => Dict.set name initial d) names [])
        initial k [].

Definition add_player (name : string) : M unit :=
  self <- get_self ;;
  if Dict.mem name (players self) then
    print (WarnExists name)
  else
    players_setitem name (initial_rating self).

Definition _expected_score (player1 player2 : string) : M R :=
  rating1 <- players_getitem player1 ;;
  rating2 <- players_getitem player2 ;;
  ret (1 / (1 + Rpower 10 ((rating2 - rating1) / 400))).

Definition _update_rating (player1 player2 : string) (score1 : R) : M unit :=
  expected1 <- _expected_score player1 player2 ;;
  rating1 <- players_getitem player1 ;;
  self <- get_self ;;
  players_setitem player1 (rating1 + k_factor self * (score1 - expected1)).

(** [score1 in (1, 0.5, 0)] *)
Definition valid_score (score1 : R) : bool :=
  if Req_dec_T score1 1 then true
  else if Req_dec_T score1 (1 / 2) then true
  else if Req_dec_T score1 0 then true
  else false.

Definition add_match_result (player1 player2 : string) (score1 : R) : M unit :=
  if negb (valid_score score1) then
    print (WarnInvalid player1 player2 score1)
  else
    (self <- get_self ;;
     if negb (Dict.mem player1 (players self)) then add_player player1
     else ret tt) ;;
    (self <- get_self ;;
     if negb (Dict.mem player2 (players self)) then add_player player2
     else ret tt) ;;
    (self <- get_self ;;
     put_self (with_matches self
                 (matches self ++ [(player1, player2, score1)]))) ;;
    _update_rating player1 player2 score1 ;;
    _update_rating player2 player1 (1 - score1).

(** [list.sort(key=lambda x: x[1], reverse=True)]: a stable sort, largest
    rating first; players with equal ratings keep their relative order. *)
Fixpoint insert_desc (x : string * R) (l : list (string * R))
  : list (string * R) :=
  match l with
  | [] => [x]
  | y :: l' =>
      if Rlt_dec (snd x) (snd y) then y :: insert_desc x l'
      else x :: y :: l'
  end.

Definition sort_desc (l : list (string * R)) : list (string * R) :=
  fold_right insert_desc [] l.

Definition rule : string :=
  "==========================================================".

Definition print_rating : M unit :=
  self <- get_self ;;
  let players_ratings := sort_desc (Dict.items (players self)) in
  print (PrintLine rule) ;;
  print (PrintLine "Results:") ;;
  print (PrintRatings players_ratings) ;;
  print (PrintLine rule).

(** Unzipping [players_ratings] into [players, ratings] fails on an empty
    list; drawing and saving the chart is left to matplotlib. *)
Definition plot_ratings (save_path : string) : M unit :=
  self <- get_self ;;
  let players_ratings := sort_desc (Dict.items (players self)) in
  match players_ratings with
  | [] => raise ValueError
  | _ :: _ =>
      print (BarChart (map fst players_ratings) (map snd players_ratings)
                      save_path)
  end.

(** ** Reading matches from a text file *)

(** [str.isspace] on one-byte characters: tab to carriage return, the four
    separators 28-31 and the space. *)
Definition isspace (c : ascii) : bool :=
  let n := N_of_ascii c in
  ((9 <=? n) && (n <=? 13) || (28 <=? n) && (n <=? 32))%N.

Definition is_empty (s : string) : bool :=
  match s with EmptyString => true | String _ _ => false end.

Fixpoint lstrip (s : string) : string :=
  match s with
  | EmptyString => EmptyString
  | String c s' => if isspace c then lstrip s' else s
  end.

Fixpoint rstrip (s : string) : string :=
  match s with
  | EmptyString => EmptyString
  | String c s' =>
      let t := rstrip s' in
      if isspace c && is_empty t then EmptyString else String c t
  end.

(** [s.strip()] *)
Definition strip (s : string) : string := rstrip (lstrip s).

(** [s.split()]: the maximal runs of non-space characters; [word] is the
    run being read. *)
Fixpoint split_from (word : string) (s : string) : list string :=
  match s with
  | EmptyString => if is_empty word then [] else [word]
  | String c s' =>
      if isspace c then
        if is_empty word then split_from EmptyString s'
        else word :: split_from EmptyString s'
      else split_from (String.append word (String c EmptyString)) s'
  end.

Definition split (s : string) : list string := split_from EmptyString s.

(** [l[i]], raising [IndexError] out of range. *)
Definition getitem (l : list string) (i : nat) : M string :=
  match nth_error l i with
  | Some x => ret x
  | None => raise IndexError
  end.

Section FromTxt.

(** The builtin [float(s)] on a string, [None] where it raises
    [ValueError]. *)
Variable float : string -> option R.

Definition float_call (s : string) : M R :=
  match float s with
  | Some r => ret r
  | None => raise ValueError
  end.

(** The body of the [for] loop of [from_txt]. *)
Definition from_txt_body (line : string) : M unit :=
  let fields := split (strip line) in
  player1 <- getitem fields 0 ;;
  player2 <- getitem fields 1 ;;
  field2 <- getitem fields 2 ;;
  score1 <- float_call field2 ;;
  add_match_result player1 player2 score1.

(** [for match in matches: ...]; an exception leaves the loop. *)
Fixpoint from_txt_loop (lines : list string) : M unit :=
  match lines with
  | [] => ret tt
  | line :: rest => from_txt_body line ;; from_txt_loop rest
  end.

(** [from_txt(file_path)].  The file system is outside the store: [file]
    is what [open(file_path).readlines()] finds, [None] when the file
    does not exist.  In that case the first [try] prints the error and
    leaves the local [matches] unbound, which the second [try] meets. *)
Definition from_txt (file : option (list string)) : M unit :=
  matches_var <- match file with
                 | Some lines => ret (Some lines)
                 | None => print (PrintExn FileNotFoundError) ;; ret None
                 end ;;
  try_print
    match matches_var with
    | Some lines => from_txt_loop lines
    | None => raise UnboundLocalError
    end.

(** *** Method calls and reachable stores *)

Inductive call : Type :=
| Call_add_player (name : string)
| Call_expected_score (player1 player2 : string)
| Call_update_rating (player1 player2 : string) (score1 : R)
| Call_from_txt (file : option (list string))
| Call_add_match_result (player1 player2 : string) (score1 : R)
| Call_print_rating
| Call_plot_ratings (save_path : string).

Definition exec (c : call) : M unit :=
  match c with
  | Call_add_player name => add_player name
  | Call_expected_score p1 p2 => _expected_score p1 p2 ;; ret tt
  | Call_update_rating p1 p2 s => _update_rating p1 p2 s
  | Call_from_txt file => from_txt file
  | Call_add_match_result p1 p2 s => add_match_result p1 p2 s
  | Call_print_rating => print_rating
  | Call_plot_ratings save_path => plot_ratings save_path
  end.

(** The stores a caller can get: a constructed one, then any method
    call, whether it returns or raises. *)
Inductive reachable : Elo -> Prop :=
| reach_init (names : list string) (initial k : R) :
    reachable (Elo_init names initial k)
| reach_call (self : Elo) (c : call) :
    reachable self -> reachable (final (exec c self)).

End FromTxt.

(** A stand-in for [float] on plain decimal literals: an optional sign,
    digits, and an optional point followed by digits, with at least one
    digit.  (The builtin also reads exponents, underscores, [inf] and
    [nan], which have no use here.) *)
Definition digit (c : ascii) : option Z :=
  let n := N_of_ascii c in
  if ((48 <=? n) && (n <=? 57))%N then Some (Z.of_N (n - 48)) else None.

(** The longest prefix of digits: its value, its length and the rest. *)
Fixpoint digits (acc : Z) (len : nat) (s : string) : Z * nat * string :=
  match s with
  | EmptyString => (acc, len, s)
  | String c s' =>
      match digit c with
      | Some d => digits (10 * acc + d)%Z (S len) s'
      | None => (acc, len, s)
      end
  end.

Definition float_decimal (s : string) : option R :=
  let '(sign, body) :=
    match s with
    | String "-" t => (-1, t)
    | String "+" t => (1, t)
    | _ => (1, s)
    end in
  let '(i, ni, rest) := digits 0 0 body in
  match rest with
  | EmptyString =>
      if Nat.eqb ni 0 then None else Some (sign * IZR i)
  | String "." frac =>
      let '(f, nf, rest') := digits 0 0 frac in
      match rest' with
      | EmptyString =>
          if Nat.eqb (ni + nf) 0 then None
          else Some (sign * (IZR i + IZR f / 10 ^ nf))
      | String _ _ => None
      end
  | String _ _ => None
  end.

(** ** The methods over the numbers and libraries of the machine *)

(** What a numeric operation of the interpreter gives: a number, or one
    of the two arithmetic exceptions. *)
Inductive arith : Type :=
| Val (r : R)
| Overflow
| ZeroDivision.

(** What [open(file_path, 'r')] followed by [f.readlines()] gives: the
    lines, or the exception raised on the way. *)
Inductive reading : Type :=
| ReadOk (lines : list string)
| ReadRaises (e : exn).

(** What the class takes from outside: the five numeric operations it
    uses, [s.strip().split()] and [float(s)] on a string, and the chart
    calls, which return nothing or raise. *)
Record runtime : Type := mkRuntime {
  num_sub : R -> R -> arith;
  num_add : R -> R -> arith;
  num_mul : R -> R -> arith;
  num_div : R -> R -> arith;
  num_pow : R -> R -> arith;
  str_fields : string -> list string;
  str_float : string -> option R;
  chart : list string -> list R -> string -> option exn
}.

Definition is_FileNotFoundError (e : exn) : bool :=
  match e with FileNotFoundError => true | _ => false end.

Module Machine.

(** The value of a numeric expression, or its exception raised. *)
Definition number (a : arith) : M R :=
  match a with
  | Val r => ret r
  | Overflow => raise OverflowError
  | ZeroDivision => raise ZeroDivisionError
  end.

(** [1 / (1 + 10 ** ((rating2 - rating1) / 400))], innermost first. *)
Definition _expected_score (rt : runtime) (player1 player2 : string) : M R :=
  rating1 <- players_getitem player1 ;;
  rating2 <- players_getitem player2 ;;
  difference <- number (num_sub rt rating2 rating1) ;;
  exponent <- number (num_div rt difference 400) ;;
  power <- number (num_pow rt 10 exponent) ;;
  denominator <- number (num_add rt 1 power) ;;
  number (num_div rt 1 denominator).

(** [rating1 + self.k_factor * (score1 - expected1)], then the store. *)
Definition _update_rating (rt : runtime) (player1 player2 : string)
           (score1 : R) : M unit :=
  expected1 <- _expected_score rt player1 player2 ;;
  rating1 <- players_getitem player1 ;;
  self <- get_self ;;
  surprise <- number (num_sub rt score1 expected1) ;;
  gain <- number (num_mul rt (k_factor self) surprise) ;;
  rating <- number (num_add rt rating1 gain) ;;
  players_setitem player1 rating.

(** As [add_match_result] above; [1 - score1] is computed between the
    two updates, when the argument of the second call is evaluated. *)
Definition add_match_result (rt : runtime) (player1 player2 : string)
           (score1 : R) : M unit :=
  if negb (valid_score score1) then
    print (WarnInvalid player1 player2 score1)
  else
    (self <- get_self ;;
     if negb (Dict.mem player1 (players self)) then add_player player1
     else ret tt) ;;
    (self <- get_self ;;
     if negb (Dict.mem player2 (players self)) then add_player player2
     else ret tt) ;;
    (self <- get_self ;;
     put_self (with_matches self
                 (matches self ++ [(player1, player2, score1)]))) ;;
    _update_rating rt player1 player2 score1 ;;
    score2 <- number (num_sub rt 1 score1) ;;
    _update_rating rt player2 player1 score2.

(** The body of the [for] loop of [from_txt]. *)
Definition from_txt_body (rt : runtime) (line : string) : M unit :=
  let fields := str_fields rt line in
  player1 <- getitem fields 0 ;;
  player2 <- getitem fields 1 ;;
  field2 <- getitem fields 2 ;;
  score1 <- match str_float rt field2 with
            | Some r => ret r
            | None => raise ValueError
            end ;;
  add_match_result rt player1 player2 score1.

Fixpoint from_txt_loop (rt : runtime) (lines : list string) : M unit :=
  match lines with
  | [] => ret tt
  | line :: rest => from_txt_body rt line ;; from_txt_loop rt rest
  end.

(** [from_txt(file_path)], given what reading the file gives.  The first
    [try] catches [FileNotFoundError] alone; any other exception of the
    reading leaves the method.  The second [try] catches every exception
    of the loop. *)
Definition from_txt (rt : runtime) (file : reading) : M unit :=
  matches_var <- match file with
                 | ReadOk lines => ret (Some lines)
                 | ReadRaises e =>
                     if is_FileNotFoundError e then
                       print (PrintExn e) ;; ret None
                     else raise e
                 end ;;
  try_print
    match matches_var with
    | Some lines => from_txt_loop rt lines
    | None => raise UnboundLocalError
    end.

(** [plot_ratings(save_path)]: the ranking, its unzipping, which fails on
    an empty list, then the chart calls, which may raise. *)
Definition plot_ratings (rt : runtime) (save_path : string) : M unit :=
  self <- get_self ;;
  let players_ratings := sort_desc (Dict.items (players self)) in
  match players_ratings with
  | [] => raise ValueError
  | _ :: _ =>
      match chart rt (map fst players_ratings) (map snd players_ratings)
                  save_path with
      | None =>
          print (BarChart (map fst players_ratings)
                          (map snd players_ratings) save_path)
      | Some e => raise e
      end
  end.

(** The module-level statements that close [elo.py]. *)
Definition script (rt : runtime) (file : reading) : M unit :=
  from_txt rt file ;;
  add_player "f" ;;
  add_player "c" ;;
  add_match_result rt "a" "b" 1 ;;
  add_match_result rt "b" "c" (1 / 2) ;;
  add_match_result rt "c" "d" 0 ;;
  add_match_result rt "d" "e" (1 / 2) ;;
  add_match_result rt "e" "f" (-1) ;;
  print_rating ;;
  plot_ratings rt "rank_list.png".

(** The runtime of the exact reading: nothing is rounded, nothing
    overflows, a division raises on a zero divisor only, the fields of a
    line are those of [split (strip line)], the chart calls succeed. *)
Definition exact (float : string -> option R) : runtime :=
  mkRuntime
    (fun a b => Val (a - b))
    (fun a b => Val (a + b))
    (fun a b => Val (a * b))
    (fun a b => if Req_dec_T b 0 then ZeroDivision else Val (a / b))
    (fun a b => Val (Rpower a b))
    (fun line => split (strip line))
    float
    (fun _ _ _ => None).

(** What reading a file that exists or not gives, for the exact reading:
    [None] is the missing file. *)
Definition reading_of (file : option (list string)) : reading :=
  match file with
  | Some lines => ReadOk lines
  | None => ReadRaises FileNotFoundError
  end.

End Machine.

(** *** Vocabulary for the machine reading *)

(** Sequencing of numeric operations. *)
Definition arith_bind (a : arith) (f : R -> arith) : arith :=
  match a with
  | Val r => f r
  | Overflow => Overflow
  | ZeroDivision => ZeroDivision
  end.

Definition arith_res (a : arith) : res R :=
  match a with
  | Val r => Ok r
  | Overflow => Raise OverflowError
  | ZeroDivision => Raise ZeroDivisionError
  end.

(** The number that [_expected_score] computes from two ratings. *)
Definition expected_value (rt : runtime) (rating1 rating2 : R) : arith :=
  arith_bind (num_sub rt rating2 rating1) (fun difference =>
  arith_bind (num_div rt difference 400) (fun exponent =>
  arith_bind (num_pow rt 10 exponent) (fun power =>
  arith_bind (num_add rt 1 power) (fun denominator =>
  num_div rt 1 denominator)))).

(** The rating that [_update_rating] computes for [player1]. *)
Definition updated_value (rt : runtime) (k rating1 rating2 score1 : R)
  : arith :=
  arith_bind (expected_value rt rating1 rating2) (fun expected1 =>
  arith_bind (num_sub rt score1 expected1) (fun surprise =>
  arith_bind (num_mul rt k surprise) (fun gain =>
  num_add rt rating1 gain))).

(** The exception is one of the two that arithmetic raises. *)
Definition arithmetic_error (e : exn) : Prop :=
  e = OverflowError \/ e = ZeroDivisionError.

(** [round] is a rounding of the reals onto machine numbers: it keeps the
    order, and it keeps 0, 1 and -1. *)
Definition rounding (round : R -> R) : Prop :=
  (forall x y, x <= y -> round x <= round y) /\
  round 0 = 0 /\ round 1 = 1 /\ round (-1) = -1.

(** The arithmetic of [rt] is the exact one followed by [round]; its
    division raises on a zero divisor only; its powers of 10, when they
    come out, are not negative. *)
Definition rounds_with (round : R -> R) (rt : runtime) : Prop :=
  (forall a b, num_sub rt a b = Val (round (a - b))) /\
  (forall a b, num_add rt a b = Val (round (a + b))) /\
  (forall a b, num_mul rt a b = Val (round (a * b))) /\
  (forall a b, b <> 0 -> num_div rt a b = Val (round (a / b))) /\
  (forall x p, num_pow rt 10 x = Val p -> 0 <= p).

(** [round] commits a relative error of at most [u], and near zero an
    absolute error of at most [eta]. *)
Definition accurate (u eta : R) (round : R -> R) : Prop :=
  forall x, Rabs (round x - x) <= u * Rabs x + eta.

(** [round] treats a number and its opposite alike. *)
Definition symmetric_rounding (round : R -> R) : Prop :=
  forall x, round (- x) = - round x.

(** The powers of 10 of [rt], when they come out, have a relative error
    of at most [eps], and near zero an absolute error of at most [eta]. *)
Definition power_accurate (eps eta : R) (rt : runtime) : Prop :=
  forall x p,
    num_pow rt 10 x = Val p ->
    Rabs (p - Rpower 10 x) <= eps * Rpower 10 x + eta.

(** The exact runtime with a bounded range: its powers overflow from the
    exponent 309 on, as [10 ** 309.0] does on binary floats. *)
Definition bounded_range (float : string -> option R) : runtime :=
  mkRuntime
    (fun a b => Val (a - b))
    (fun a b => Val (a + b))
    (fun a b => Val (a * b))
    (fun a b => if Req_dec_T b 0 then ZeroDivision else Val (a / b))
    (fun a b => if Rle_dec 309 b then Overflow else Val (Rpower a b))
    (fun line => split (strip line))
    float
    (fun _ _ _ => None).

(** What the loop body of [Machine.from_txt] reads off a line. *)
Definition machine_parse (rt : runtime) (line : string)
  : option (string * string * R) :=
  match str_fields rt line with
  | player1 :: player2 :: field2 :: _ =>
      match str_float rt field2 with
      | Some score1 => Some (player1, player2, score1)
      | None => None
      end
  | _ => None
  end.

(** [Machine.add_match_result] called on each triple in turn. *)
Fixpoint machine_add_match_results (rt : runtime)
         (ms : list (string * string * R)) : M unit :=
  match ms with
  | [] => ret tt
  | (player1, player2, score1) :: rest =>
      Machine.add_match_result rt player1 player2 score1 ;;
      machine_add_match_results rt rest
  end.

(** ** Vocabulary of the statements *)

(** The expected score as a function of the two ratings. *)
Definition expected (rating1 rating2 : R) : R :=
  1 / (1 + Rpower 10 ((rating2 - rating1) / 400)).

(** The store after [if name not in self.players: self.add_player(name)]. *)
Definition registered (name : string) (self : Elo) : Elo :=
  if Dict.mem name (players self) then self
  else with_players self
         (Dict.set name (initial_rating self) (players self)).

(** The rating a player brings to a match: the stored one, or the initial
    rating the player is registered with. *)
Definition pre_match_rating (name : string) (self : Elo) : R :=
  match Dict.get name (players self) with
  | Some r => r
  | None => initial_rating self
  end.


(** Every name in the match history is a key of the mapping. *)
Definition history_registered (self : Elo) : Prop :=
  forall (p1 p2 : string) (s : R),
    In (p1, p2, s) (matches self) ->
    Dict.mem p1 (players self) = true /\ Dict.mem p2 (players self) = true.

(** From [self] to [self']: no key is lost, and the history stays
    registered if it was. *)
Definition extends (self self' : Elo) : Prop :=
  (forall k, Dict.mem k (players self) = true ->
             Dict.mem k (players self') = true) /\
  (history_registered self -> history_registered self').

Definition grows {A : Type} (m : M A) : Prop :=
  forall self, extends self (final (m self)).

(** What the loop body reads off a line: three leading fields, the third
    one a number; [None] when a field is missing or [float] fails. *)
Definition parse_line (float : string -> option R) (line : string)
  : option (string * string * R) :=
  match split (strip line) with
  | player1 :: player2 :: field2 :: _ =>
      match float field2 with
      | Some score1 => Some (player1, player2, score1)
      | None => None
      end
  | _ => None
  end.

(** The store built by [Elo()] at the end of [elo.py]. *)
Definition Elo_default : Elo := Elo_init [] 1500 32.

(** The two ways the methods change a store: an assignment
    [self.players[k] = v], and the append of a record with a valid score
    whose two players are keys.  [evolves self self'] holds when [self']
    comes from [self] by a sequence of those. *)
Inductive evolves (self : Elo) : Elo -> Prop :=
| evolves_refl : evolves self self
| evolves_set (self' : Elo) (k : string) (v : R) :
    evolves self self' ->
    evolves self (with_players self' (Dict.set k v (players self')))
| evolves_append (self' : Elo) (p1 p2 : string) (s : R) :
    evolves self self' ->
    valid_score s = true ->
    Dict.mem p1 (players self') = true ->
    Dict.mem p2 (players self') = true ->
    evolves self (with_matches self' (matches self' ++ [(p1, p2, s)])).

Definition evolving {A : Type} (m : M A) : Prop :=
  forall self, evolves self (final (m self)).


(** No character of [s] is white space. *)
Fixpoint no_space (s : string) : bool :=
  match s with
  | EmptyString => true
  | String c s' => negb (isspace c) && no_space s'
  end.

(** The store in which the two updates of a valid match start: both
    players registered, the record appended. *)
Definition recorded (p1 p2 : string) (s : R) (self : Elo) : Elo :=
  with_matches (registered p2 (registered p1 self))
    (matches (registered p2 (registered p1 self)) ++ [(p1, p2, s)]).

(** The exponent that [_expected_score] hands to the power. *)
Definition exponent_of (round : R -> R) (rating1 rating2 : R) : R :=
  round (round (rating2 - rating1) / 400).

(** The matches, the listing and the chart that follow the two
    registrations of the script. *)
Definition script_tail (rt : runtime) : M unit :=
  Machine.add_match_result rt "a" "b" 1 ;;
  Machine.add_match_result rt "b" "c" (1 / 2) ;;
  Machine.add_match_result rt "c" "d" 0 ;;
  Machine.add_match_result rt "d" "e" (1 / 2) ;;
  Machine.add_match_result rt "e" "f" (-1) ;;
  print_rating ;;
  Machine.plot_ratings rt "rank_list.png".

(** * Properties *)

(** ** Dictionary lemmas *)

Lemma get_set_same (k : string) (v : R) (d : Dict.dict) :
  Dict.get k (Dict.set k v d) = Some v.
Proof.
  induction d as [|[k' v'] d IH]; simpl.
  - now rewrite String.eqb_refl.
  - destruct (String.eqb k k') eqn:E; simpl; rewrite E; auto.
Qed.

Lemma get_set_other (k k' : string) (v : R) (d : Dict.dict) :
  k <> k' -> Dict.get k' (Dict.set k v d) = Dict.get k' d.
Proof.
  intros Hne. induction d as [|[k0 v0] d IH]; simpl.
  - destruct (String.eqb_spec k' k); congruence.
  - destruct (String.eqb_spec k k0) as [->|Hk]; simpl.
    + destruct (String.eqb_spec k' k0); congruence.
    + now rewrite IH.
Qed.

Lemma set_absent (k : string) (v : R) (d : Dict.dict) :
  Dict.get k d = None -> Dict.set k v d = d ++ [(k, v)].
Proof.
  induction d as [|[k' v'] d IH]; simpl; intros H; auto.
  destruct (String.eqb k k'); [discriminate|]. now rewrite IH.
Qed.


Lemma mem_true_get (k : string) (d : Dict.dict) :
  Dict.mem k d = true <-> exists r, Dict.get k d = Some r.
Proof.
  unfold Dict.mem. destruct (Dict.get k d) as [r|]; split.
  - eauto.
  - auto.
  - discriminate.
  - intros [r H]. discriminate.
Qed.

Lemma mem_false_get (k : string) (d : Dict.dict) :
  Dict.mem k d = false <-> Dict.get k d = None.
Proof.
  unfold Dict.mem. destruct (Dict.get k d); split; congruence.
Qed.

Lemma mem_set_same (k : string) (v : R) (d : Dict.dict) :
  Dict.mem k (Dict.set k v d) = true.
Proof. unfold Dict.mem. now rewrite get_set_same. Qed.

Lemma mem_set_mono (k k' : string) (v : R) (d : Dict.dict) :
  Dict.mem k' d = true -> Dict.mem k' (Dict.set k v d) = true.
Proof.
  intros H. destruct (String.eqb_spec k k') as [->|Hne].
  - apply mem_set_same.
  - unfold Dict.mem in *. now rewrite get_set_other.
Qed.

(** ** What each method does, in closed form *)

Lemma valid_score_iff (s : R) :
  valid_score s = true <-> s = 1 \/ s = 1 / 2 \/ s = 0.
Proof.
  unfold valid_score.
  destruct (Req_dec_T s 1); [tauto|].
  destruct (Req_dec_T s (1 / 2)); [tauto|].
  destruct (Req_dec_T s 0); [tauto|].
  split; [discriminate | tauto].
Qed.

Lemma valid_score_complement (s : R) :
  valid_score s = true -> valid_score (1 - s) = true.
Proof.
  rewrite !valid_score_iff. intros [-> | [-> | ->]].
  - right; right; lra.
  - right; left; lra.
  - left; lra.
Qed.

Lemma add_player_present (name : string) (self : Elo) :
  Dict.mem name (players self) = true ->
  add_player name self = mkOut (Ok tt) self [WarnExists name].
Proof.
  intros H. unfold add_player, bind, get_self; simpl. now rewrite H.
Qed.

Lemma add_player_absent (name : string) (self : Elo) :
  Dict.mem name (players self) = false ->
  add_player name self =
  mkOut (Ok tt)
        (with_players self
           (Dict.set name (initial_rating self) (players self))) [].
Proof.
  intros H. unfold add_player, bind, get_self; simpl. now rewrite H.
Qed.

Lemma expected_score_run (p1 p2 : string) (self : Elo) (r1 r2 : R) :
  Dict.get p1 (players self) = Some r1 ->
  Dict.get p2 (players self) = Some r2 ->
  _expected_score p1 p2 self = mkOut (Ok (expected r1 r2)) self [].
Proof.
  intros H1 H2.
  unfold _expected_score, players_getitem, bind, get_self; simpl.
  rewrite H1; simpl. rewrite H2; simpl. reflexivity.
Qed.

Lemma update_rating_run (p1 p2 : string) (s : R) (self : Elo) (r1 r2 : R) :
  Dict.get p1 (players self) = Some r1 ->
  Dict.get p2 (players self) = Some r2 ->
  _update_rating p1 p2 s self =
  mkOut (Ok tt)
        (with_players self
           (Dict.set p1 (r1 + k_factor self * (s - expected r1 r2))
                     (players self))) [].
Proof.
  intros H1 H2. unfold _update_rating, bind at 1.
  rewrite (expected_score_run _ _ _ _ _ H1 H2); simpl.
  unfold players_getitem, players_setitem, bind, get_self; simpl.
  rewrite H1; simpl. reflexivity.
Qed.

Lemma bind_ok {A B : Type} (m : M A) (f : A -> M B)
      (self self' : Elo) (a : A) (out : list event) :
  m self = mkOut (Ok a) self' out ->
  bind m f self =
  mkOut (value (f a self')) (final (f a self')) (out ++ printed (f a self')).
Proof. intros H. unfold bind. now rewrite H. Qed.

Lemma bind_raise {A B : Type} (m : M A) (f : A -> M B)
      (self self' : Elo) (e : exn) (out : list event) :
  m self = mkOut (Raise e) self' out ->
  bind m f self = mkOut (Raise e) self' out.
Proof. intros H. unfold bind. now rewrite H. Qed.

Lemma register_run (name : string) (self : Elo) :
  (self0 <- get_self ;;
   if negb (Dict.mem name (players self0)) then add_player name
   else ret tt) self
  = mkOut (Ok tt) (registered name self) [].
Proof.
  unfold registered, bind at 1, get_self. cbn [value final printed].
  destruct (Dict.mem name (players self)) eqn:E; cbn [negb].
  - reflexivity.
  - now rewrite (add_player_absent _ _ E).
Qed.

Lemma registered_mem (name : string) (self : Elo) :
  Dict.mem name (players (registered name self)) = true.
Proof.
  unfold registered. destruct (Dict.mem name (players self)) eqn:E; auto.
  simpl. apply mem_set_same.
Qed.

Lemma registered_mono (name k : string) (self : Elo) :
  Dict.mem k (players self) = true ->
  Dict.mem k (players (registered name self)) = true.
Proof.
  unfold registered. destruct (Dict.mem name (players self)); auto.
  simpl. apply mem_set_mono.
Qed.

Lemma registered_fields (name : string) (self : Elo) :
  initial_rating (registered name self) = initial_rating self /\
  k_factor (registered name self) = k_factor self /\
  matches (registered name self) = matches self.
Proof.
  unfold registered. destruct (Dict.mem name (players self)); auto.
Qed.

(** A valid match in closed form: register both, append the record, update
    [player1] from the registered ratings, then update [player2] from the
    dictionary as the first update left it. *)
Lemma add_match_result_valid (p1 p2 : string) (s : R) (self : Elo) :
  valid_score s = true ->
  exists r1 r2 r2' : R,
    let self1 := registered p2 (registered p1 self) in
    let a := r1 + k_factor self * (s - expected r1 r2) in
    let d1 := Dict.set p1 a (players self1) in
    Dict.get p1 (players self1) = Some r1 /\
    Dict.get p2 (players self1) = Some r2 /\
    Dict.get p2 d1 = Some r2' /\
    add_match_result p1 p2 s self =
    mkOut (Ok tt)
          (mkElo (Dict.set p2 (r2' + k_factor self * (1 - s - expected r2' a))
                           d1)
                 (initial_rating self) (k_factor self)
                 (matches self ++ [(p1, p2, s)]))
          [].
Proof.
  intros Hv.
  set (self1 := registered p2 (registered p1 self)).
  assert (M1 : Dict.mem p1 (players self1) = true)
    by (apply registered_mono, registered_mem).
  assert (M2 : Dict.mem p2 (players self1) = true)
    by apply registered_mem.
  apply mem_true_get in M1. destruct M1 as [r1 G1].
  apply mem_true_get in M2. destruct M2 as [r2 G2].
  destruct (registered_fields p2 (registered p1 self)) as (I2 & K2 & H2).
  destruct (registered_fields p1 self) as (I1 & K1 & H1).
  set (a := r1 + k_factor self * (s - expected r1 r2)).
  assert (M2' : Dict.mem p2 (Dict.set p1 a (players self1)) = true).
  { apply mem_set_mono. apply mem_true_get. eauto. }
  apply mem_true_get in M2'. destruct M2' as [r2' G2'].
  exists r1, r2, r2'. cbv zeta. fold self1. fold a.
  repeat split; auto.
  unfold add_match_result. rewrite Hv. cbn [negb].
  rewrite (bind_ok _ _ _ _ _ _ (register_run p1 self)).
  rewrite (bind_ok _ _ _ _ _ _ (register_run p2 (registered p1 self))).
  fold self1.
  set (self2 := with_matches self1 (matches self1 ++ [(p1, p2, s)])).
  assert (E2 : (self0 <- get_self ;;
                put_self (with_matches self0
                            (matches self0 ++ [(p1, p2, s)]))) self1
               = mkOut (Ok tt) self2 []) by reflexivity.
  rewrite (bind_ok _ _ _ _ _ _ E2).
  assert (G1' : Dict.get p1 (players self2) = Some r1) by exact G1.
  assert (G2'' : Dict.get p2 (players self2) = Some r2) by exact G2.
  rewrite (bind_ok _ _ _ _ _ _ (update_rating_run _ _ s _ _ _ G1' G2'')).
  assert (K3 : k_factor self2 = k_factor self)
    by (unfold self2, self1; simpl; congruence).
  rewrite K3. fold a.
  set (self3 := with_players self2 (Dict.set p1 a (players self2))).
  assert (G3 : Dict.get p2 (players self3) = Some r2') by exact G2'.
  assert (G4 : Dict.get p1 (players self3) = Some a)
    by apply get_set_same.
  rewrite (update_rating_run _ _ _ _ _ _ G3 G4).
  cbn [value final printed app].
  assert (K0 : k_factor self1 = k_factor self) by (unfold self1; congruence).
  assert (I0 : initial_rating self1 = initial_rating self)
    by (unfold self1; congruence).
  assert (H0 : matches self1 = matches self) by (unfold self1; congruence).
  f_equal. unfold with_players. f_equal; simpl.
  - now rewrite K0.
  - exact I0.
  - exact K0.
  - now rewrite H0.
Qed.

(** ** The expected-score formula *)

Lemma Rpower10_pos (x : R) : 0 < Rpower 10 x.
Proof. unfold Rpower. apply exp_pos. Qed.

Lemma Rpower10_opp (x : R) : Rpower 10 (- x) = / Rpower 10 x.
Proof. apply Rpower_Ropp. Qed.

Lemma Rpower10_gt_1 (x : R) : 0 < x -> 1 < Rpower 10 x.
Proof.
  intros Hx. rewrite <- (Rpower_O 10) by lra.
  apply Rpower_lt; lra.
Qed.

Lemma expected_bounds (r1 r2 : R) : 0 < expected r1 r2 < 1.
Proof.
  unfold expected.
  pose proof (Rpower10_pos ((r2 - r1) / 400)) as Hp.
  set (p := Rpower 10 ((r2 - r1) / 400)) in *.
  split.
  - apply Rdiv_lt_0_compat; lra.
  - apply (Rmult_lt_reg_r (1 + p)); [lra|].
    unfold Rdiv. rewrite Rmult_assoc, Rinv_l by lra. lra.
Qed.

Lemma expected_sum (r1 r2 : R) : expected r1 r2 + expected r2 r1 = 1.
Proof.
  unfold expected.
  replace ((r1 - r2) / 400) with (- ((r2 - r1) / 400)) by lra.
  rewrite Rpower10_opp.
  pose proof (Rpower10_pos ((r2 - r1) / 400)) as Hp.
  set (p := Rpower 10 ((r2 - r1) / 400)) in *.
  field. split; lra.
Qed.

Lemma expected_equal (r : R) : expected r r = 1 / 2.
Proof.
  unfold expected. replace ((r - r) / 400) with 0 by lra.
  rewrite Rpower_O by lra. lra.
Qed.

Lemma expected_underdog (r1 r2 : R) : r1 < r2 -> expected r1 r2 < 1 / 2.
Proof.
  intros Hlt. unfold expected.
  assert (Hp : 1 < Rpower 10 ((r2 - r1) / 400))
    by (apply Rpower10_gt_1; lra).
  set (p := Rpower 10 ((r2 - r1) / 400)) in *.
  apply (Rmult_lt_reg_r (1 + p)); [lra|].
  unfold Rdiv at 1. rewrite Rmult_assoc, Rinv_l by lra. lra.
Qed.

(** ** C1: the first match of a fresh store *)

(** C1.  On a fresh store with initial rating 1500 and k-factor 32,
    [add_match_result a b 1] leaves [a] at 1516, but [b] at
    [1500 + 32 * (0 - E)] where [E] is the expected score of [b] against
    the rating 1516 that [a] already has after its own update, not against
    the pre-match 1500; this value lies strictly above 1484. *)
Theorem C1_fresh_match_reads_updated_rating :
  let self := final (add_match_result "a" "b" 1 (Elo_init [] 1500 32)) in
  Dict.get "a" (players self) = Some 1516 /\
  Dict.get "b" (players self) =
    Some (1500 + 32 * (1 - 1 - 1 / (1 + Rpower 10 ((1516 - 1500) / 400)))) /\
  1484 < 1500 + 32 * (1 - 1 - 1 / (1 + Rpower 10 ((1516 - 1500) / 400))) /\
  Dict.get "b" (players self) <> Some 1484.
Proof.
  cbv zeta.
  assert (Hv : valid_score 1 = true) by (apply valid_score_iff; auto).
  destruct (add_match_result_valid "a" "b" 1 (Elo_init [] 1500 32) Hv)
    as (r1 & r2 & r2' & G1 & G2 & G2' & Hrun).
  cbn in G1, G2. injection G1 as <-. injection G2 as <-.
  assert (Ha : 1500 + k_factor (Elo_init [] 1500 32)
                       * (1 - expected 1500 1500) = 1516).
  { rewrite expected_equal. simpl. lra. }
  rewrite Ha in G2', Hrun. cbn in G2'. injection G2' as <-.
  rewrite Hrun. cbn. fold (expected 1500 1516).
  assert (Hlt : expected 1500 1516 < 1 / 2) by (apply expected_underdog; lra).
  repeat split; try lra.
  intros H. injection H as H. lra.
Qed.

(** ** C2: an invalid score changes nothing *)

Lemma add_match_result_invalid (p1 p2 : string) (s : R) (self : Elo) :
  valid_score s = false ->
  add_match_result p1 p2 s self = mkOut (Ok tt) self [WarnInvalid p1 p2 s].
Proof. intros H. unfold add_match_result. now rewrite H. Qed.

(** C2.  When [score1] is none of 1, 0.5 and 0, [add_match_result] returns
    normally with the store exactly as it was (same players, same ratings,
    same match history) and prints the invalid-result warning. *)
Theorem C2_invalid_score_no_mutation (p1 p2 : string) (s : R) (self : Elo) :
  s <> 1 -> s <> 1 / 2 -> s <> 0 ->
  add_match_result p1 p2 s self = mkOut (Ok tt) self [WarnInvalid p1 p2 s].
Proof.
  intros H1 H2 H3. apply add_match_result_invalid.
  destruct (valid_score s) eqn:E; auto.
  apply valid_score_iff in E. tauto.
Qed.

Lemma C2_invalid_score_witness :
  add_match_result "e" "f" (-1) (Elo_init ["a"; "b"] 1500 32)
  = mkOut (Ok tt) (Elo_init ["a"; "b"] 1500 32) [WarnInvalid "e" "f" (-1)].
Proof. apply C2_invalid_score_no_mutation; lra. Defined.

(** ** A match over exact arithmetic always returns *)

Lemma add_match_result_returns (p1 p2 : string) (s : R) (self : Elo) :
  value (add_match_result p1 p2 s self) = Ok tt.
Proof.
  destruct (valid_score s) eqn:E.
  - destruct (add_match_result_valid p1 p2 s self E)
      as (r1 & r2 & r2' & _ & _ & _ & Hrun).
    now rewrite Hrun.
  - now rewrite add_match_result_invalid.
Qed.

(** ** C6: registering a player *)

(** C6.  [add_player] on a present name leaves the store as it is and
    prints the already-exists warning; on an absent name it appends the
    single entry [(name, initial_rating)] and prints nothing; in both
    cases it returns normally, and a second call right after the first is
    the reported no-op. *)
Theorem C6_add_player_idempotent (name : string) (self : Elo) :
  (Dict.mem name (players self) = true ->
   add_player name self = mkOut (Ok tt) self [WarnExists name]) /\
  (Dict.mem name (players self) = false ->
   add_player name self =
   mkOut (Ok tt)
         (with_players self (players self ++ [(name, initial_rating self)]))
         []) /\
  (let once := final (add_player name self) in
   add_player name once = mkOut (Ok tt) once [WarnExists name]).
Proof.
  split; [apply add_player_present|]. split.
  - intros H. rewrite (add_player_absent _ _ H).
    apply mem_false_get in H. now rewrite (set_absent _ _ _ H).
  - cbv zeta. apply add_player_present.
    destruct (Dict.mem name (players self)) eqn:E.
    + now rewrite (add_player_present _ _ E).
    + rewrite (add_player_absent _ _ E). apply mem_set_same.
Qed.

Lemma C6_add_player_witness :
  add_player "f" (Elo_init ["a"] 1500 32) =
  mkOut (Ok tt)
        (with_players (Elo_init ["a"] 1500 32)
           (players (Elo_init ["a"] 1500 32) ++ [("f", 1500)]))
        [] /\
  add_player "a" (Elo_init ["a"] 1500 32) =
  mkOut (Ok tt) (Elo_init ["a"] 1500 32) [WarnExists "a"].
Proof.
  split.
  - apply (proj1 (proj2 (C6_add_player_idempotent "f"
                           (Elo_init ["a"] 1500 32)))).
    reflexivity.
  - apply (proj1 (C6_add_player_idempotent "a" (Elo_init ["a"] 1500 32))).
    reflexivity.
Defined.

(** ** C7: a draw between equally rated players *)

Lemma pre_match_rating_registered (k name : string) (self : Elo) :
  pre_match_rating k (registered name self) = pre_match_rating k self.
Proof.
  unfold registered, pre_match_rating.
  destruct (Dict.mem name (players self)) eqn:E; auto.
  cbn [players with_players initial_rating].
  apply mem_false_get in E.
  destruct (String.eqb_spec name k) as [->|Hne].
  - now rewrite get_set_same, E.
  - now rewrite get_set_other.
Qed.

Lemma get_pre_match_rating (k : string) (self : Elo) (r : R) :
  Dict.get k (players self) = Some r -> pre_match_rating k self = r.
Proof. intros H. unfold pre_match_rating. now rewrite H. Qed.



(** ** C10: the k-factor can be zero *)


(** ** C8: the ranked listing *)

Lemma insert_desc_perm (x : string * R) (l : list (string * R)) :
  Permutation (insert_desc x l) (x :: l).
Proof.
  induction l as [|y l IH]; simpl.
  - apply Permutation_refl.
  - destruct (Rlt_dec (snd x) (snd y)).
    + apply perm_trans with (y :: x :: l).
      * now apply perm_skip.
      * apply perm_swap.
    + apply Permutation_refl.
Qed.

Lemma sort_desc_perm (l : list (string * R)) : Permutation (sort_desc l) l.
Proof.
  induction l as [|x l IH]; simpl.
  - apply perm_nil.
  - apply perm_trans with (x :: sort_desc l).
    + apply insert_desc_perm.
    + now apply perm_skip.
Qed.




(** Equal ratings keep their order: an element goes in front of the
    first one that is not rated strictly higher. *)
Lemma insert_desc_stable (x y : string * R) (l : list (string * R)) :
  snd y <= snd x -> insert_desc x (y :: l) = x :: y :: l.
Proof.
  intros H. simpl. destruct (Rlt_dec (snd x) (snd y)); auto. lra.
Qed.

Lemma print_rating_run (self : Elo) :
  print_rating self =
  mkOut (Ok tt) self
        [PrintLine rule; PrintLine "Results:";
         PrintRatings (sort_desc (Dict.items (players self)));
         PrintLine rule].
Proof. reflexivity. Qed.


(** ** C4: the players of recorded matches are registered *)

Lemma extends_refl (self : Elo) : extends self self.
Proof. split; auto. Qed.

Lemma extends_trans (s1 s2 s3 : Elo) :
  extends s1 s2 -> extends s2 s3 -> extends s1 s3.
Proof. intros [K1 H1] [K2 H2]. split; auto. Qed.

Lemma extends_same_history (self self' : Elo) :
  (forall k, Dict.mem k (players self) = true ->
             Dict.mem k (players self') = true) ->
  matches self' = matches self ->
  extends self self'.
Proof.
  intros Hk Hm. split; auto.
  intros Hh p1 p2 s Hin. rewrite Hm in Hin.
  destruct (Hh p1 p2 s Hin). auto.
Qed.

Lemma grows_ret {A : Type} (a : A) : grows (ret a).
Proof. intros self. apply extends_refl. Qed.

Lemma grows_raise {A : Type} (e : exn) : grows (@raise A e).
Proof. intros self. apply extends_refl. Qed.

Lemma grows_print (ev : event) : grows (print ev).
Proof. intros self. apply extends_refl. Qed.

Lemma grows_bind {A B : Type} (m : M A) (f : A -> M B) :
  grows m -> (forall a, grows (f a)) -> grows (bind m f).
Proof.
  intros Hm Hf self. unfold bind.
  destruct (value (m self)) as [a|e]; cbn [final].
  - eapply extends_trans; [apply Hm | apply Hf].
  - apply Hm.
Qed.

Lemma grows_try_print (body : M unit) : grows body -> grows (try_print body).
Proof.
  intros Hb self. unfold try_print.
  destruct (value (body self)); cbn [final]; apply Hb.
Qed.

Lemma grows_players_getitem (name : string) : grows (players_getitem name).
Proof.
  intros self. unfold players_getitem, bind, get_self; cbn [value final].
  destruct (Dict.get name (players self)); apply extends_refl.
Qed.

Lemma grows_players_setitem (name : string) (r : R) :
  grows (players_setitem name r).
Proof.
  intros self. apply extends_same_history; [|reflexivity].
  intros k. apply mem_set_mono.
Qed.

Lemma grows_add_player (name : string) : grows (add_player name).
Proof.
  intros self. destruct (Dict.mem name (players self)) eqn:E.
  - rewrite (add_player_present _ _ E). apply extends_refl.
  - rewrite (add_player_absent _ _ E).
    apply extends_same_history; [|reflexivity].
    intros k. apply mem_set_mono.
Qed.

Lemma grows_expected_score (p1 p2 : string) : grows (_expected_score p1 p2).
Proof.
  unfold _expected_score.
  apply grows_bind; [apply grows_players_getitem|]. intros r1.
  apply grows_bind; [apply grows_players_getitem|]. intros r2.
  apply grows_ret.
Qed.

Lemma grows_update_rating (p1 p2 : string) (s : R) :
  grows (_update_rating p1 p2 s).
Proof.
  unfold _update_rating.
  apply grows_bind; [apply grows_expected_score|]. intros e.
  apply grows_bind; [apply grows_players_getitem|]. intros r1.
  intros self. apply (grows_players_setitem p1 _ self).
Qed.

(** The one method that appends a record registers both names first. *)
Lemma grows_add_match_result (p1 p2 : string) (s : R) :
  grows (add_match_result p1 p2 s).
Proof.
  intros self. destruct (valid_score s) eqn:E.
  - destruct (add_match_result_valid p1 p2 s self E)
      as (r1 & r2 & r2' & _ & _ & _ & Hrun).
    rewrite Hrun. cbn [final].
    set (self1 := registered p2 (registered p1 self)) in *.
    assert (Hk : forall k, Dict.mem k (players self) = true ->
                           Dict.mem k (players self1) = true).
    { intros k Hk. now apply registered_mono, registered_mono. }
    split; cbn [players matches].
    + intros k Hk0. now apply mem_set_mono, mem_set_mono, Hk.
    + intros Hh q1 q2 t Hin. apply in_app_or in Hin.
      destruct Hin as [Hin|[Hin|[]]].
      * destruct (Hh q1 q2 t Hin) as [Hq1 Hq2].
        split; apply mem_set_mono, mem_set_mono, Hk; assumption.
      * injection Hin as <- <- <-. split.
        -- apply mem_set_mono, mem_set_same.
        -- apply mem_set_same.
  - rewrite (add_match_result_invalid _ _ _ _ E). apply extends_refl.
Qed.

Lemma grows_print_rating : grows print_rating.
Proof. intros self. rewrite print_rating_run. apply extends_refl. Qed.

Lemma grows_plot_ratings (save_path : string) :
  grows (plot_ratings save_path).
Proof.
  intros self. unfold plot_ratings, bind, get_self; cbn [value final].
  destruct (sort_desc (Dict.items (players self))); apply extends_refl.
Qed.

Lemma grows_getitem (l : list string) (i : nat) : grows (getitem l i).
Proof.
  unfold getitem. destruct (nth_error l i);
    [apply grows_ret | apply grows_raise].
Qed.

Section FromTxtGrows.

Variable float : string -> option R.

Lemma grows_from_txt_body (line : string) :
  grows (from_txt_body float line).
Proof.
  unfold from_txt_body.
  apply grows_bind; [apply grows_getitem|]. intros player1.
  apply grows_bind; [apply grows_getitem|]. intros player2.
  apply grows_bind; [apply grows_getitem|]. intros field2.
  apply grows_bind.
  - unfold float_call. destruct (float field2);
      [apply grows_ret | apply grows_raise].
  - intros score1. apply grows_add_match_result.
Qed.

Lemma grows_from_txt_loop (lines : list string) :
  grows (from_txt_loop float lines).
Proof.
  induction lines as [|line rest IH]; simpl.
  - apply grows_ret.
  - apply grows_bind; [apply grows_from_txt_body | intros _; exact IH].
Qed.

Lemma grows_from_txt (file : option (list string)) :
  grows (from_txt float file).
Proof.
  unfold from_txt. apply grows_bind.
  - destruct file; [apply grows_ret|].
    apply grows_bind; [apply grows_print | intros _; apply grows_ret].
  - intros [lines|]; apply grows_try_print;
      [apply grows_from_txt_loop | apply grows_raise].
Qed.

Lemma grows_exec (c : call) : grows (exec float c).
Proof.
  destruct c; simpl.
  - apply grows_add_player.
  - apply grows_bind; [apply grows_expected_score|].
    intros _. apply grows_ret.
  - apply grows_update_rating.
  - apply grows_from_txt.
  - apply grows_add_match_result.
  - apply grows_print_rating.
  - apply grows_plot_ratings.
Qed.

End FromTxtGrows.

(** C4.  In every store reached from a constructed one by method calls,
    each player named in a record of the match history is a key of the
    mapping; [add_match_result], the one method that appends records,
    registers both names before it appends, and no method call ever
    removes a key. *)
Theorem C4_history_players_registered (float : string -> option R) :
  (forall self : Elo, reachable float self -> history_registered self) /\
  (forall (c : call) (self : Elo) (k : string),
      Dict.mem k (players self) = true ->
      Dict.mem k (players (final (exec float c self))) = true).
Proof.
  split.
  - intros self Hr. induction Hr as [names initial k|self c Hr IH].
    + intros p1 p2 s Hin. destruct Hin.
    + now apply (grows_exec float c self).
  - intros c self k. apply (grows_exec float c self).
Qed.

Lemma C4_history_witness :
  history_registered
    (final (exec float_decimal (Call_add_match_result "a" "b" 1)
              (Elo_init [] 1500 32))) /\
  Dict.mem "f"
    (players (final (exec float_decimal (Call_add_match_result "a" "b" 1)
                       (Elo_init ["f"] 1500 32)))) = true.
Proof.
  split.
  - apply (proj1 (C4_history_players_registered float_decimal)).
    apply reach_call, reach_init.
  - apply (proj2 (C4_history_players_registered float_decimal)).
    reflexivity.
Defined.

(** ** C9: a malformed line in [from_txt] *)

Section FromTxtLines.

Variable float : string -> option R.

Lemma from_txt_body_well_formed (line p1 p2 : string) (s : R) (self : Elo) :
  parse_line float line = Some (p1, p2, s) ->
  from_txt_body float line self = add_match_result p1 p2 s self.
Proof.
  unfold parse_line, from_txt_body.
  destruct (split (strip line)) as [|f0 [|f1 [|f2 rest]]];
    try discriminate.
  destruct (float f2) as [r|] eqn:Ef; [|discriminate].
  intros H. injection H as <- <- <-.
  unfold getitem, float_call, bind, ret; simpl. rewrite Ef. simpl.
  destruct (add_match_result f0 f1 r self); reflexivity.
Qed.

Lemma from_txt_body_malformed (line : string) (self : Elo) :
  parse_line float line = None ->
  exists e : exn,
    from_txt_body float line self = mkOut (Raise e) self [].
Proof.
  unfold parse_line, from_txt_body.
  destruct (split (strip line)) as [|f0 [|f1 [|f2 rest]]];
    try (intros _; exists IndexError; reflexivity).
  destruct (float f2) as [r|] eqn:Ef; [discriminate|].
  intros _. exists ValueError.
  unfold getitem, float_call, bind, ret; simpl. rewrite Ef. reflexivity.
Qed.

Lemma from_txt_body_returns (line : string) (self : Elo) :
  parse_line float line <> None ->
  value (from_txt_body float line self) = Ok tt.
Proof.
  destruct (parse_line float line) as [[[p1 p2] s]|] eqn:E; [|congruence].
  intros _. rewrite (from_txt_body_well_formed _ _ _ _ _ E).
  apply add_match_result_returns.
Qed.

Lemma from_txt_some (lines : list string) (self : Elo) :
  from_txt float (Some lines) self
  = try_print (from_txt_loop float lines) self.
Proof.
  unfold from_txt, bind, ret; cbn [value final printed app].
  destruct (try_print (from_txt_loop float lines) self); reflexivity.
Qed.

End FromTxtLines.

Lemma float_decimal_1 : float_decimal "1" = Some 1.
Proof. cbn. f_equal. lra. Qed.

(** C9, as stated, fails: after a line with a missing field, the
    well-formed line that follows (which alone would record a match) is
    not ingested. *)
Lemma C9_counterexample_later_line_dropped :
  let self := Elo_init [] 1500 32 in
  matches (final (from_txt float_decimal (Some ["c d 1"]) self))
  = [("c", "d", 1)] /\
  value (from_txt float_decimal (Some ["a b"; "c d 1"]) self) = Ok tt /\
  final (from_txt float_decimal (Some ["a b"; "c d 1"]) self) = self /\
  matches (final (from_txt float_decimal (Some ["a b"; "c d 1"]) self)) = [].
Proof.
  cbv zeta.
  assert (Hbad : parse_line float_decimal "a b" = None) by reflexivity.
  destruct (from_txt_body_malformed float_decimal "a b"
              (Elo_init [] 1500 32) Hbad) as [e He].
  assert (Hrun : from_txt float_decimal (Some ["a b"; "c d 1"])
                   (Elo_init [] 1500 32)
                 = mkOut (Ok tt) (Elo_init [] 1500 32) [PrintExn e]).
  { rewrite from_txt_some. unfold try_print. cbn [from_txt_loop].
    rewrite (bind_raise _ _ _ _ _ _ He). reflexivity. }
  rewrite Hrun. cbn [value final]. repeat split.
  rewrite from_txt_some.
  assert (Hgood : parse_line float_decimal "c d 1" = Some ("c", "d", 1)).
  { unfold parse_line. cbn [strip lstrip rstrip split split_from isspace].
    cbn. do 2 f_equal. lra. }
  assert (Hv : valid_score 1 = true) by (apply valid_score_iff; auto).
  destruct (add_match_result_valid "c" "d" 1 (Elo_init [] 1500 32) Hv)
    as (r1 & r2 & r2' & _ & _ & _ & Hadd).
  unfold try_print. cbn [from_txt_loop].
  rewrite (bind_ok _ _ _ _ tt []
             (eq_trans (from_txt_body_well_formed float_decimal _ _ _ _ _
                          Hgood) Hadd)).
  reflexivity.
Qed.

(** * Further properties of the methods *)

(** ** Keys of the dictionary *)

Lemma mem_In_keys (k : string) (d : Dict.dict) :
  Dict.mem k d = true <-> In k (Dict.keys d).
Proof.
  unfold Dict.mem. induction d as [|[k' v] d IH]; simpl.
  - split; [discriminate | tauto].
  - destruct (String.eqb_spec k k') as [->|Hne].
    + split; auto.
    + rewrite IH. split; [tauto|]. intros [H|H]; [congruence | exact H].
Qed.

Lemma keys_set (k : string) (v : R) (d : Dict.dict) :
  Dict.keys (Dict.set k v d) =
  if Dict.mem k d then Dict.keys d else Dict.keys d ++ [k].
Proof.
  unfold Dict.mem. induction d as [|[k' v'] d IH]; simpl.
  - reflexivity.
  - destruct (String.eqb k k') eqn:E; simpl.
    + reflexivity.
    + rewrite IH. now destruct (Dict.get k d).
Qed.

Lemma keys_set_prefix (k : string) (v : R) (d : Dict.dict) :
  exists new, Dict.keys (Dict.set k v d) = Dict.keys d ++ new.
Proof.
  rewrite keys_set. destruct (Dict.mem k d).
  - exists []. now rewrite app_nil_r.
  - now exists [k].
Qed.

Lemma keys_set_NoDup (k : string) (v : R) (d : Dict.dict) :
  NoDup (Dict.keys d) -> NoDup (Dict.keys (Dict.set k v d)).
Proof.
  intros Hd. rewrite keys_set. destruct (Dict.mem k d) eqn:E; auto.
  apply NoDup_app; auto.
  - constructor; [intros [] | constructor].
  - intros x Hx [<-|[]]. apply mem_In_keys in Hx. congruence.
Qed.

Lemma length_set (k : string) (v : R) (d : Dict.dict) :
  List.length (Dict.set k v d) =
  if Dict.mem k d then List.length d else S (List.length d).
Proof.
  unfold Dict.mem. induction d as [|[k' v'] d IH]; simpl.
  - reflexivity.
  - destruct (String.eqb k k'); simpl; auto.
    rewrite IH. now destruct (Dict.get k d).
Qed.

(** ** The constructor *)

Lemma get_fold_set (initial : R) (names : list string) (k : string)
      (d : Dict.dict) :
  Dict.get k (fold_left (fun d name => Dict.set name initial d) names d) =
  if in_dec string_dec k names then Some initial else Dict.get k d.
Proof.
  revert d. induction names as [|n names IH]; intros d; simpl.
  - reflexivity.
  - rewrite IH.
    destruct (in_dec string_dec k names) as [Hin|Hout];
      destruct (string_dec n k) as [->|Hne]; auto.
    + apply get_set_same.
    + now apply get_set_other.
Qed.

Lemma keys_fold_set_NoDup (initial : R) (names : list string)
      (d : Dict.dict) :
  NoDup (Dict.keys d) ->
  NoDup (Dict.keys
           (fold_left (fun d name => Dict.set name initial d) names d)).
Proof.
  revert d. induction names as [|n names IH]; intros d Hd; simpl; auto.
  apply IH. now apply keys_set_NoDup.
Qed.

(** [Elo(names, initial, k)] rates exactly the listed names, each at
    [initial] and each once however often it is listed, keeps [initial]
    and [k] as its configuration and starts with an empty history. *)
Theorem init_rates_listed_names (names : list string) (initial k : R)
        (name : string) :
  (In name names ->
   Dict.get name (players (Elo_init names initial k)) = Some initial) /\
  (~ In name names ->
   Dict.get name (players (Elo_init names initial k)) = None) /\
  NoDup (Dict.keys (players (Elo_init names initial k))) /\
  initial_rating (Elo_init names initial k) = initial /\
  k_factor (Elo_init names initial k) = k /\
  matches (Elo_init names initial k) = [].
Proof.
  unfold Elo_init; cbn [players initial_rating k_factor matches].
  rewrite get_fold_set.
  destruct (in_dec string_dec name names) as [Hin|Hout].
  - repeat split; auto; try tauto.
    apply keys_fold_set_NoDup. constructor.
  - repeat split; auto; try tauto.
    apply keys_fold_set_NoDup. constructor.
Qed.

Lemma init_rates_listed_names_witness :
  Dict.get "a" (players (Elo_init ["a"; "b"; "a"] 1500 32)) = Some 1500 /\
  Dict.get "z" (players (Elo_init ["a"; "b"; "a"] 1500 32)) = None.
Proof.
  split.
  - apply (proj1 (init_rates_listed_names ["a"; "b"; "a"] 1500 32 "a")).
    simpl. auto.
  - apply (proj1 (proj2 (init_rates_listed_names ["a"; "b"; "a"] 1500 32
                           "z"))).
    simpl. intros [H|[H|[H|[]]]]; discriminate.
Defined.

(** ** Every call is a sequence of assignments and valid appends *)

Lemma evolves_trans (s1 s2 s3 : Elo) :
  evolves s1 s2 -> evolves s2 s3 -> evolves s1 s3.
Proof.
  intros H12 H23. induction H23.
  - exact H12.
  - now apply evolves_set.
  - now apply evolves_append.
Qed.

Lemma evolving_ret {A : Type} (a : A) : evolving (ret a).
Proof. intros self. apply evolves_refl. Qed.

Lemma evolving_raise {A : Type} (e : exn) : evolving (@raise A e).
Proof. intros self. apply evolves_refl. Qed.

Lemma evolving_print (ev : event) : evolving (print ev).
Proof. intros self. apply evolves_refl. Qed.

Lemma evolving_bind {A B : Type} (m : M A) (f : A -> M B) :
  evolving m -> (forall a, evolving (f a)) -> evolving (bind m f).
Proof.
  intros Hm Hf self. unfold bind.
  destruct (value (m self)) as [a|e]; cbn [final].
  - eapply evolves_trans; [apply Hm | apply Hf].
  - apply Hm.
Qed.

Lemma evolving_try_print (body : M unit) :
  evolving body -> evolving (try_print body).
Proof.
  intros Hb self. unfold try_print.
  destruct (value (body self)); cbn [final]; apply Hb.
Qed.

Lemma evolving_players_getitem (name : string) :
  evolving (players_getitem name).
Proof.
  intros self. unfold players_getitem, bind, get_self; cbn [value final].
  destruct (Dict.get name (players self)); apply evolves_refl.
Qed.

Lemma evolving_players_setitem (name : string) (r : R) :
  evolving (players_setitem name r).
Proof. intros self. apply evolves_set, evolves_refl. Qed.

Lemma evolving_add_player (name : string) : evolving (add_player name).
Proof.
  intros self. destruct (Dict.mem name (players self)) eqn:E.
  - rewrite (add_player_present _ _ E). apply evolves_refl.
  - rewrite (add_player_absent _ _ E). apply evolves_set, evolves_refl.
Qed.

Lemma evolving_expected_score (p1 p2 : string) :
  evolving (_expected_score p1 p2).
Proof.
  unfold _expected_score.
  apply evolving_bind; [apply evolving_players_getitem|]. intros r1.
  apply evolving_bind; [apply evolving_players_getitem|]. intros r2.
  apply evolving_ret.
Qed.

Lemma evolving_update_rating (p1 p2 : string) (s : R) :
  evolving (_update_rating p1 p2 s).
Proof.
  unfold _update_rating.
  apply evolving_bind; [apply evolving_expected_score|]. intros e.
  apply evolving_bind; [apply evolving_players_getitem|]. intros r1.
  intros self. apply (evolving_players_setitem p1 _ self).
Qed.

Lemma evolves_registered (name : string) (self : Elo) :
  evolves self (registered name self).
Proof.
  unfold registered. destruct (Dict.mem name (players self)).
  - apply evolves_refl.
  - apply evolves_set, evolves_refl.
Qed.

Lemma evolving_add_match_result (p1 p2 : string) (s : R) :
  evolving (add_match_result p1 p2 s).
Proof.
  intros self. destruct (valid_score s) eqn:E.
  - destruct (add_match_result_valid p1 p2 s self E)
      as (r1 & r2 & r2' & G1 & G2 & _ & Hrun).
    rewrite Hrun. cbn [final].
    set (self1 := registered p2 (registered p1 self)) in *.
    destruct (registered_fields p2 (registered p1 self)) as (I2 & K2 & H2).
    destruct (registered_fields p1 self) as (I1 & K1 & H1).
    assert (E1 : evolves self self1).
    { eapply evolves_trans; apply evolves_registered. }
    assert (M1 : Dict.mem p1 (players self1) = true)
      by (apply mem_true_get; eauto).
    assert (M2 : Dict.mem p2 (players self1) = true)
      by (apply mem_true_get; eauto).
    pose proof (evolves_append self self1 p1 p2 s E1 E M1 M2) as E2.
    pose proof (evolves_set self _ p1
                  (r1 + k_factor self * (s - expected r1 r2)) E2) as E3.
    pose proof (evolves_set self _ p2
                  (r2' + k_factor self
                         * (1 - s - expected r2'
                              (r1 + k_factor self * (s - expected r1 r2))))
                  E3) as E4.
    unfold with_players, with_matches in E4.
    cbn [players initial_rating k_factor matches] in E4.
    fold self1 in I2, K2, H2.
    rewrite I2, I1, K2, K1, H2, H1 in E4. exact E4.
  - rewrite (add_match_result_invalid _ _ _ _ E). apply evolves_refl.
Qed.

Lemma evolving_print_rating : evolving print_rating.
Proof. intros self. rewrite print_rating_run. apply evolves_refl. Qed.

Lemma evolving_plot_ratings (save_path : string) :
  evolving (plot_ratings save_path).
Proof.
  intros self. unfold plot_ratings, bind, get_self; cbn [value final].
  destruct (sort_desc (Dict.items (players self))); apply evolves_refl.
Qed.

Lemma evolving_getitem (l : list string) (i : nat) : evolving (getitem l i).
Proof.
  unfold getitem. destruct (nth_error l i);
    [apply evolving_ret | apply evolving_raise].
Qed.

Lemma evolving_from_txt_loop (float : string -> option R)
      (lines : list string) :
  evolving (from_txt_loop float lines).
Proof.
  induction lines as [|line rest IH]; simpl.
  - apply evolving_ret.
  - apply evolving_bind; [|intros _; exact IH].
    unfold from_txt_body.
    apply evolving_bind; [apply evolving_getitem|]. intros player1.
    apply evolving_bind; [apply evolving_getitem|]. intros player2.
    apply evolving_bind; [apply evolving_getitem|]. intros field2.
    apply evolving_bind.
    + unfold float_call. destruct (float field2);
        [apply evolving_ret | apply evolving_raise].
    + intros score1. apply evolving_add_match_result.
Qed.

Lemma evolving_from_txt (float : string -> option R)
      (file : option (list string)) :
  evolving (from_txt float file).
Proof.
  unfold from_txt. apply evolving_bind.
  - destruct file; [apply evolving_ret|].
    apply evolving_bind; [apply evolving_print|].
    intros _. apply evolving_ret.
  - intros [lines|]; apply evolving_try_print;
      [apply evolving_from_txt_loop | apply evolving_raise].
Qed.

Lemma evolving_exec (float : string -> option R) (c : call) :
  evolving (exec float c).
Proof.
  destruct c; simpl.
  - apply evolving_add_player.
  - apply evolving_bind; [apply evolving_expected_score|].
    intros _. apply evolving_ret.
  - apply evolving_update_rating.
  - apply evolving_from_txt.
  - apply evolving_add_match_result.
  - apply evolving_print_rating.
  - apply evolving_plot_ratings.
Qed.

(** ** What no call ever does *)

Lemma evolves_configuration (self self' : Elo) :
  evolves self self' ->
  initial_rating self' = initial_rating self /\
  k_factor self' = k_factor self.
Proof. induction 1; auto. Qed.

Lemma evolves_history (self self' : Elo) :
  evolves self self' ->
  exists later, matches self' = matches self ++ later.
Proof.
  induction 1 as [|self' k v _ [later IH]|self' p1 p2 s _ [later IH] _ _ _].
  - exists []. now rewrite app_nil_r.
  - now exists later.
  - exists (later ++ [(p1, p2, s)]). cbn [matches with_matches].
    now rewrite IH, app_assoc.
Qed.

Lemma evolves_keys (self self' : Elo) :
  evolves self self' ->
  exists new, Dict.keys (players self') = Dict.keys (players self) ++ new.
Proof.
  induction 1 as [|self' k v _ [new IH]|self' p1 p2 s _ IH _ _ _].
  - exists []. now rewrite app_nil_r.
  - destruct (keys_set_prefix k v (players self')) as [new' Hn].
    exists (new ++ new'). cbn [players with_players].
    now rewrite Hn, IH, app_assoc.
  - exact IH.
Qed.

Lemma evolves_NoDup (self self' : Elo) :
  evolves self self' ->
  NoDup (Dict.keys (players self)) -> NoDup (Dict.keys (players self')).
Proof.
  induction 1; intros Hd; auto.
  cbn [players with_players]. now apply keys_set_NoDup, IHevolves.
Qed.

Lemma evolves_scores (self self' : Elo) :
  evolves self self' ->
  Forall (fun m => valid_score (snd m) = true) (matches self) ->
  Forall (fun m => valid_score (snd m) = true) (matches self').
Proof.
  induction 1; intros Hs; auto.
  cbn [matches with_matches]. apply Forall_app. split; auto.
Qed.

(** No method call changes [initial_rating] or [k_factor], and none
    removes, reorders or rewrites a record of the match history: the
    history after the call is the history before it followed by the
    records the call appended. *)
Theorem calls_keep_configuration_and_history
        (float : string -> option R) (c : call) (self : Elo) :
  initial_rating (final (exec float c self)) = initial_rating self /\
  k_factor (final (exec float c self)) = k_factor self /\
  exists later,
    matches (final (exec float c self)) = matches self ++ later.
Proof.
  pose proof (evolving_exec float c self) as He.
  destruct (evolves_configuration _ _ He) as [Hi Hk].
  auto using evolves_history.
Qed.

(** No method call removes or reorders players: the keys the dictionary
    had before the call come first, in the same order, followed by the
    players the call registered. *)
Theorem calls_keep_insertion_order
        (float : string -> option R) (c : call) (self : Elo) :
  exists new,
    Dict.keys (players (final (exec float c self)))
    = Dict.keys (players self) ++ new.
Proof. apply evolves_keys, evolving_exec. Qed.

(** In every store reached from a constructed one by method calls, each
    player has exactly one entry in the dictionary. *)
Theorem reachable_players_unique (float : string -> option R) (self : Elo) :
  reachable float self -> NoDup (Dict.keys (players self)).
Proof.
  induction 1 as [names initial k|self c Hr IH].
  - apply keys_fold_set_NoDup. constructor.
  - eapply evolves_NoDup; [apply evolving_exec | exact IH].
Qed.

Lemma reachable_players_unique_witness :
  NoDup (Dict.keys
           (players (final (exec float_decimal
                              (Call_add_match_result "a" "b" 1)
                              (Elo_init ["b"; "b"] 1500 32))))).
Proof.
  apply (reachable_players_unique float_decimal).
  apply reach_call, reach_init.
Defined.

(** In every store reached from a constructed one by method calls, each
    record of the match history carries a score that is 1, 0.5 or 0. *)
Theorem reachable_history_scores_valid
        (float : string -> option R) (self : Elo)
        (p1 p2 : string) (s : R) :
  reachable float self ->
  In (p1, p2, s) (matches self) ->
  s = 1 \/ s = 1 / 2 \/ s = 0.
Proof.
  intros Hr Hin. apply valid_score_iff.
  assert (Hall : Forall (fun m => valid_score (snd m) = true)
                        (matches self)).
  { clear Hin. induction Hr as [names initial k|self c Hr IH].
    - constructor.
    - eapply evolves_scores; [apply evolving_exec | exact IH]. }
  rewrite Forall_forall in Hall. apply (Hall (p1, p2, s) Hin).
Qed.

Lemma reachable_history_scores_valid_witness :
  In ("a", "b", 1)
     (matches (final (exec float_decimal (Call_add_match_result "a" "b" 1)
                        (Elo_init [] 1500 32)))) /\
  (1 = 1 \/ 1 = 1 / 2 \/ 1 = 0).
Proof.
  assert (Hin : In ("a", "b", 1)
                   (matches (final (exec float_decimal
                                      (Call_add_match_result "a" "b" 1)
                                      (Elo_init [] 1500 32))))).
  { cbn [exec].
    assert (Hv : valid_score 1 = true) by (apply valid_score_iff; auto).
    destruct (add_match_result_valid "a" "b" 1 (Elo_init [] 1500 32) Hv)
      as (r1 & r2 & r2' & _ & _ & _ & Hrun).
    rewrite Hrun. simpl. auto. }
  split; [exact Hin|].
  apply (reachable_history_scores_valid float_decimal _ "a" "b" 1
           (reach_call float_decimal _ _ (reach_init float_decimal [] 1500 32))
           Hin).
Defined.

(** ** Lookups of players that are not registered, exactly *)

Lemma expected_score_missing_first (p1 p2 : string) (self : Elo) :
  Dict.get p1 (players self) = None ->
  _expected_score p1 p2 self = mkOut (Raise (KeyError p1)) self [].
Proof.
  intros H. unfold _expected_score, players_getitem, bind, get_self.
  cbn [value final printed]. rewrite H. reflexivity.
Qed.

Lemma expected_score_missing_second (p1 p2 : string) (r1 : R) (self : Elo) :
  Dict.get p1 (players self) = Some r1 ->
  Dict.get p2 (players self) = None ->
  _expected_score p1 p2 self = mkOut (Raise (KeyError p2)) self [].
Proof.
  intros H1 H2. unfold _expected_score, players_getitem, bind, get_self.
  cbn [value final printed]. rewrite H1. cbn. rewrite H2. reflexivity.
Qed.

(** ** Registration before a match *)

Lemma get_registered_other (q name : string) (self : Elo) :
  q <> name ->
  Dict.get q (players (registered name self)) = Dict.get q (players self).
Proof.
  intros Hq. unfold registered. destruct (Dict.mem name (players self)); auto.
  cbn [players with_players]. apply get_set_other. congruence.
Qed.

Lemma length_registered (name : string) (self : Elo) :
  (List.length (players (registered name self))
   <= S (List.length (players self)))%nat.
Proof.
  unfold registered. destruct (Dict.mem name (players self)) eqn:E; auto.
  cbn [players with_players]. rewrite length_set, E. auto.
Qed.

(** ** The ranking *)



Lemma sort_desc_nil (l : list (string * R)) : sort_desc l = [] <-> l = [].
Proof.
  split.
  - intros H. pose proof (sort_desc_perm l) as Hp. rewrite H in Hp.
    now apply Permutation_nil.
  - intros ->. reflexivity.
Qed.

(** ** Splitting a line into fields *)

Lemma split_from_lstrip (s : string) :
  split_from EmptyString (lstrip s) = split_from EmptyString s.
Proof.
  induction s as [|c s IH]; [reflexivity|].
  cbn [lstrip]. destruct (isspace c) eqn:E.
  - rewrite IH. cbn [split_from]. now rewrite E.
  - reflexivity.
Qed.

Lemma split_from_blank_tail (w s : string) :
  is_empty (rstrip s) = true -> split_from w s = split_from w EmptyString.
Proof.
  revert w. induction s as [|c s IH]; intros w; [reflexivity|].
  cbn [rstrip split_from].
  destruct (isspace c) eqn:Ec; cbn [andb].
  - destruct (is_empty (rstrip s)) eqn:Et; [|discriminate].
    intros _. rewrite (IH EmptyString eq_refl). cbn.
    now destruct (is_empty w).
  - discriminate.
Qed.

Lemma split_from_rstrip (w s : string) :
  split_from w (rstrip s) = split_from w s.
Proof.
  revert w. induction s as [|c s IH]; intros w; [reflexivity|].
  cbn [rstrip].
  destruct (isspace c && is_empty (rstrip s)) eqn:E.
  - apply andb_prop in E. destruct E as [Ec Et].
    symmetry. now apply split_from_blank_tail; cbn [rstrip]; rewrite Ec, Et.
  - cbn [split_from]. now rewrite !IH.
Qed.

(** [line.strip().split()] gives the same fields as [line.split()]: the
    white space that [strip] removes at both ends separates no field. *)
Theorem split_ignores_strip (line : string) :
  split (strip line) = split line.
Proof.
  unfold split, strip. now rewrite split_from_rstrip, split_from_lstrip.
Qed.

Lemma no_space_append (w : string) (c : ascii) :
  no_space (String.append w (String c EmptyString))
  = no_space w && negb (isspace c).
Proof.
  induction w as [|c' w IH]; cbn.
  - now rewrite andb_true_r.
  - rewrite IH. now rewrite andb_assoc.
Qed.

Lemma is_empty_append (w : string) (c : ascii) :
  is_empty (String.append w (String c EmptyString)) = false.
Proof. now destruct w. Qed.

Lemma split_from_fields (w s : string) :
  no_space w = true ->
  Forall (fun field => is_empty field = false /\ no_space field = true)
         (split_from w s).
Proof.
  revert w. induction s as [|c s IH]; intros w Hw; cbn [split_from].
  - destruct (is_empty w) eqn:E; auto.
  - destruct (isspace c) eqn:Ec.
    + destruct (is_empty w) eqn:E.
      * now apply IH.
      * constructor; [split; assumption | now apply IH].
    + apply IH. rewrite no_space_append, Hw, Ec. reflexivity.
Qed.

(** Every field that [split] returns is non-empty and free of white
    space. *)
Lemma split_fields_are_words (line : string) :
  Forall (fun field => is_empty field = false /\ no_space field = true)
         (split line).
Proof. now apply split_from_fields. Qed.

(** The names that the loop of [from_txt] reads off a line are words: a
    line that yields a match yields two player names that are non-empty
    and free of white space. *)
Theorem parsed_names_are_words (float : string -> option R)
        (line p1 p2 : string) (s : R) :
  parse_line float line = Some (p1, p2, s) ->
  (is_empty p1 = false /\ no_space p1 = true) /\
  (is_empty p2 = false /\ no_space p2 = true).
Proof.
  unfold parse_line, split at 1, strip.
  rewrite split_from_rstrip, split_from_lstrip. fold (split line).
  pose proof (split_fields_are_words line) as Hw.
  destruct (split line) as [|f0 [|f1 [|f2 rest]]]; try discriminate.
  destruct (float f2); [|discriminate].
  intros H. injection H as <- <- _.
  inversion Hw as [|? ? H0 Hw1]; subst.
  inversion Hw1 as [|? ? H1 _]; subst. auto.
Qed.

Lemma parsed_names_are_words_witness :
  (is_empty "ann" = false /\ no_space "ann" = true) /\
  (is_empty "bob" = false /\ no_space "bob" = true).
Proof.
  apply (parsed_names_are_words float_decimal "  ann bob 1 " "ann" "bob" 1).
  unfold parse_line. cbn. repeat f_equal; lra.
Defined.

(** ** Reading a whole file *)

Lemma try_print_returns (body : M unit) (self : Elo) :
  value (try_print body self) = Ok tt.
Proof.
  unfold try_print. destruct (value (body self)) as [[]|e] eqn:E; auto.
Qed.

Lemma try_print_of_returning (body : M unit) (self : Elo) :
  value (body self) = Ok tt -> try_print body self = body self.
Proof. intros H. unfold try_print. now rewrite H. Qed.

Lemma bind_returns {B : Type} (m : M unit) (f : unit -> M B) (self : Elo) :
  value (m self) = Ok tt ->
  bind m f self =
  mkOut (value (f tt (final (m self)))) (final (f tt (final (m self))))
        (printed (m self) ++ printed (f tt (final (m self)))).
Proof. intros H. unfold bind. now rewrite H. Qed.

(** ** The statements at the end of the file *)

Lemma add_player_final (name : string) (self : Elo) :
  value (add_player name self) = Ok tt /\
  final (add_player name self) = registered name self.
Proof.
  unfold registered. destruct (Dict.mem name (players self)) eqn:E.
  - now rewrite (add_player_present _ _ E).
  - now rewrite (add_player_absent _ _ E).
Qed.

Lemma evolves_mem (self self' : Elo) (k : string) :
  evolves self self' ->
  Dict.mem k (players self) = true -> Dict.mem k (players self') = true.
Proof.
  intros He Hk. destruct (evolves_keys _ _ He) as [new Hn].
  apply mem_In_keys. rewrite Hn. apply in_or_app. left.
  now apply mem_In_keys.
Qed.

(** * The methods over machine arithmetic *)

(** ** What the machine methods do, in closed form *)

Lemma number_run (a : arith) (self : Elo) :
  Machine.number a self = mkOut (arith_res a) self [].
Proof. destruct a; reflexivity. Qed.

Lemma arith_res_error (a : arith) (e : exn) :
  arith_res a = Raise e -> arithmetic_error e.
Proof.
  destruct a; simpl; intros H; try discriminate;
    injection H as <-; [left | right]; reflexivity.
Qed.

(** A step that neither changes the store nor prints. *)
Lemma bind_pure {A B : Type} (m : M A) (f : A -> M B) (self : Elo)
      (v : res A) :
  m self = mkOut v self [] ->
  bind m f self =
  match v with
  | Ok a => f a self
  | Raise e => mkOut (Raise e) self []
  end.
Proof.
  intros H. unfold bind. rewrite H. cbn [value final printed].
  destruct v as [a|e]; [|reflexivity].
  destruct (f a self); reflexivity.
Qed.

Lemma bind_ext {A B : Type} (m m' : M A) (f f' : A -> M B) (self : Elo) :
  m self = m' self ->
  (forall a self', f a self' = f' a self') ->
  bind m f self = bind m' f' self.
Proof.
  intros Hm Hf. unfold bind. rewrite Hm.
  destruct (value (m' self)); [now rewrite Hf | reflexivity].
Qed.

Lemma players_getitem_present (name : string) (r : R) (self : Elo) :
  Dict.get name (players self) = Some r ->
  players_getitem name self = mkOut (Ok r) self [].
Proof.
  intros H. unfold players_getitem, bind, get_self.
  cbn [value final printed]. now rewrite H.
Qed.

Lemma players_getitem_absent (name : string) (self : Elo) :
  Dict.get name (players self) = None ->
  players_getitem name self = mkOut (Raise (KeyError name)) self [].
Proof.
  intros H. unfold players_getitem, bind, get_self.
  cbn [value final printed]. now rewrite H.
Qed.

Lemma machine_expected_score_run (rt : runtime) (p1 p2 : string)
      (r1 r2 : R) (self : Elo) :
  Dict.get p1 (players self) = Some r1 ->
  Dict.get p2 (players self) = Some r2 ->
  Machine._expected_score rt p1 p2 self
  = mkOut (arith_res (expected_value rt r1 r2)) self [].
Proof.
  intros G1 G2. unfold Machine._expected_score, expected_value.
  rewrite (bind_pure _ _ _ _ (players_getitem_present _ _ _ G1)).
  rewrite (bind_pure _ _ _ _ (players_getitem_present _ _ _ G2)).
  rewrite (bind_pure _ _ _ _ (number_run _ _)).
  destruct (num_sub rt r2 r1) as [d| |]; try reflexivity. cbn.
  rewrite (bind_pure _ _ _ _ (number_run _ _)).
  destruct (num_div rt d 400) as [x| |]; try reflexivity. cbn.
  rewrite (bind_pure _ _ _ _ (number_run _ _)).
  destruct (num_pow rt 10 x) as [p| |]; try reflexivity. cbn.
  rewrite (bind_pure _ _ _ _ (number_run _ _)).
  destruct (num_add rt 1 p) as [q| |]; try reflexivity. cbn.
  apply number_run.
Qed.

Lemma machine_expected_score_missing_first (rt : runtime) (p1 p2 : string)
      (self : Elo) :
  Dict.get p1 (players self) = None ->
  Machine._expected_score rt p1 p2 self
  = mkOut (Raise (KeyError p1)) self [].
Proof.
  intros G1. unfold Machine._expected_score.
  now rewrite (bind_pure _ _ _ _ (players_getitem_absent _ _ G1)).
Qed.

Lemma machine_expected_score_missing_second (rt : runtime) (p1 p2 : string)
      (r1 : R) (self : Elo) :
  Dict.get p1 (players self) = Some r1 ->
  Dict.get p2 (players self) = None ->
  Machine._expected_score rt p1 p2 self
  = mkOut (Raise (KeyError p2)) self [].
Proof.
  intros G1 G2. unfold Machine._expected_score.
  rewrite (bind_pure _ _ _ _ (players_getitem_present _ _ _ G1)).
  now rewrite (bind_pure _ _ _ _ (players_getitem_absent _ _ G2)).
Qed.

(** With both players registered, [_update_rating] either stores the
    computed rating of [player1] or raises the arithmetic exception with
    the store untouched. *)
Lemma machine_update_rating_run (rt : runtime) (p1 p2 : string)
      (s r1 r2 : R) (self : Elo) :
  Dict.get p1 (players self) = Some r1 ->
  Dict.get p2 (players self) = Some r2 ->
  Machine._update_rating rt p1 p2 s self =
  match updated_value rt (k_factor self) r1 r2 s with
  | Val r =>
      mkOut (Ok tt) (with_players self (Dict.set p1 r (players self))) []
  | Overflow => mkOut (Raise OverflowError) self []
  | ZeroDivision => mkOut (Raise ZeroDivisionError) self []
  end.
Proof.
  intros G1 G2. unfold Machine._update_rating, updated_value.
  rewrite (bind_pure _ _ _ _ (machine_expected_score_run rt _ _ _ _ _ G1 G2)).
  destruct (expected_value rt r1 r2) as [e| |]; try reflexivity. cbn.
  rewrite (bind_pure _ _ _ _ (players_getitem_present _ _ _ G1)).
  rewrite (bind_pure get_self _ self (Ok self) eq_refl).
  rewrite (bind_pure _ _ _ _ (number_run _ _)).
  destruct (num_sub rt s e) as [d| |]; try reflexivity. cbn.
  rewrite (bind_pure _ _ _ _ (number_run _ _)).
  destruct (num_mul rt (k_factor self) d) as [g| |]; try reflexivity. cbn.
  rewrite (bind_pure _ _ _ _ (number_run _ _)).
  destruct (num_add rt r1 g) as [r| |]; reflexivity.
Qed.

Lemma machine_add_match_result_invalid (rt : runtime) (p1 p2 : string)
      (s : R) (self : Elo) :
  valid_score s = false ->
  Machine.add_match_result rt p1 p2 s self
  = mkOut (Ok tt) self [WarnInvalid p1 p2 s].
Proof. intros H. unfold Machine.add_match_result. now rewrite H. Qed.

Lemma outcome_eta {A : Type} (o : outcome A) :
  mkOut (value o) (final o) (printed o) = o.
Proof. now destruct o. Qed.

Lemma recorded_get (p1 p2 : string) (s : R) (self : Elo) :
  Dict.get p1 (players (recorded p1 p2 s self))
  = Some (pre_match_rating p1 self) /\
  Dict.get p2 (players (recorded p1 p2 s self))
  = Some (pre_match_rating p2 self).
Proof.
  unfold recorded. cbn [players with_matches].
  set (self1 := registered p2 (registered p1 self)).
  assert (M1 : Dict.mem p1 (players self1) = true)
    by (apply registered_mono, registered_mem).
  assert (M2 : Dict.mem p2 (players self1) = true)
    by apply registered_mem.
  apply mem_true_get in M1. destruct M1 as [r1 G1].
  apply mem_true_get in M2. destruct M2 as [r2 G2].
  rewrite G1, G2.
  apply get_pre_match_rating in G1. apply get_pre_match_rating in G2.
  unfold self1 in G1, G2. rewrite !pre_match_rating_registered in G1, G2.
  now subst.
Qed.

Lemma recorded_fields (p1 p2 : string) (s : R) (self : Elo) :
  initial_rating (recorded p1 p2 s self) = initial_rating self /\
  k_factor (recorded p1 p2 s self) = k_factor self /\
  matches (recorded p1 p2 s self) = matches self ++ [(p1, p2, s)].
Proof.
  unfold recorded. cbn [initial_rating k_factor matches with_matches].
  destruct (registered_fields p2 (registered p1 self)) as (I2 & K2 & H2).
  destruct (registered_fields p1 self) as (I1 & K1 & H1).
  repeat split; congruence.
Qed.

(** A valid match registers, appends, and then runs the two updates. *)
Lemma machine_add_match_result_valid (rt : runtime) (p1 p2 : string)
      (s : R) (self : Elo) :
  valid_score s = true ->
  Machine.add_match_result rt p1 p2 s self =
  (Machine._update_rating rt p1 p2 s ;;
   score2 <- Machine.number (num_sub rt 1 s) ;;
   Machine._update_rating rt p2 p1 score2) (recorded p1 p2 s self).
Proof.
  intros Hv. unfold Machine.add_match_result. rewrite Hv. cbn [negb].
  rewrite (bind_ok _ _ _ _ _ _ (register_run p1 self)).
  rewrite (bind_ok _ _ _ _ _ _ (register_run p2 (registered p1 self))).
  assert (E2 : (self0 <- get_self ;;
                put_self (with_matches self0
                            (matches self0 ++ [(p1, p2, s)])))
                 (registered p2 (registered p1 self))
               = mkOut (Ok tt) (recorded p1 p2 s self) []) by reflexivity.
  rewrite (bind_ok _ _ _ _ _ _ E2).
  cbn [value final printed app]. rewrite !outcome_eta. reflexivity.
Qed.

(** The three ways a valid match ends: an arithmetic exception in the
    first update, one after the first update, or a normal return. *)
Lemma machine_match_outcome (rt : runtime) (p1 p2 : string) (s : R)
      (self : Elo) :
  valid_score s = true ->
  let start := recorded p1 p2 s self in
  let after := Machine.add_match_result rt p1 p2 s self in
  (exists e, arithmetic_error e /\ after = mkOut (Raise e) start []) \/
  (exists e a,
      arithmetic_error e /\
      after = mkOut (Raise e)
                    (with_players start (Dict.set p1 a (players start))) []) \/
  (exists a b,
      after = mkOut (Ok tt)
                    (with_players start
                       (Dict.set p2 b (Dict.set p1 a (players start)))) []).
Proof.
  intros Hv. cbv zeta. rewrite (machine_add_match_result_valid _ _ _ _ _ Hv).
  set (start := recorded p1 p2 s self).
  destruct (recorded_get p1 p2 s self) as [G1 G2]. fold start in G1, G2.
  pose proof (machine_update_rating_run rt p1 p2 s _ _ start G1 G2) as U1.
  destruct (updated_value rt (k_factor start) (pre_match_rating p1 self)
              (pre_match_rating p2 self) s) as [a| |].
  - rewrite (bind_ok _ _ _ _ _ _ U1). cbn [app].
    set (mid := with_players start (Dict.set p1 a (players start))).
    rewrite (bind_pure _ _ _ _ (number_run _ mid)).
    destruct (num_sub rt 1 s) as [s2| |]; cbn [arith_res].
    + assert (M2 : Dict.mem p2 (players mid) = true).
      { apply mem_set_mono, mem_true_get. eauto. }
      apply mem_true_get in M2. destruct M2 as [r2' G2'].
      assert (G1' : Dict.get p1 (players mid) = Some a)
        by apply get_set_same.
      rewrite (machine_update_rating_run rt p2 p1 s2 _ _ mid G2' G1').
      destruct (updated_value rt (k_factor mid) r2' a s2) as [b| |];
        cbn [value final printed].
      * right; right. exists a, b. reflexivity.
      * right; left. exists OverflowError, a. split; [now left | reflexivity].
      * right; left. exists ZeroDivisionError, a.
        split; [now right | reflexivity].
    + right; left. exists OverflowError, a. split; [now left | reflexivity].
    + right; left. exists ZeroDivisionError, a.
      split; [now right | reflexivity].
  - left. exists OverflowError. split; [now left|].
    now rewrite (bind_raise _ _ _ _ _ _ U1).
  - left. exists ZeroDivisionError. split; [now right|].
    now rewrite (bind_raise _ _ _ _ _ _ U1).
Qed.

(** What every end of a valid match has in common. *)
Lemma machine_match_final (rt : runtime) (p1 p2 : string) (s : R)
      (self : Elo) :
  valid_score s = true ->
  let after := Machine.add_match_result rt p1 p2 s self in
  printed after = [] /\
  (value after = Ok tt \/
   exists e, arithmetic_error e /\ value after = Raise e) /\
  matches (final after) = matches self ++ [(p1, p2, s)] /\
  initial_rating (final after) = initial_rating self /\
  k_factor (final after) = k_factor self /\
  Dict.mem p1 (players (final after)) = true /\
  Dict.mem p2 (players (final after)) = true /\
  (forall q, q <> p1 -> q <> p2 ->
             Dict.get q (players (final after)) = Dict.get q (players self)) /\
  (List.length (players (final after))
   <= 2 + List.length (players self))%nat.
Proof.
  intros Hv. cbv zeta.
  destruct (recorded_get p1 p2 s self) as [G1 G2].
  destruct (recorded_fields p1 p2 s self) as (HI & HK & HM).
  set (start := recorded p1 p2 s self) in *.
  assert (M1 : Dict.mem p1 (players start) = true)
    by (apply mem_true_get; eauto).
  assert (M2 : Dict.mem p2 (players start) = true)
    by (apply mem_true_get; eauto).
  assert (Hq : forall q, q <> p1 -> q <> p2 ->
                         Dict.get q (players start) = Dict.get q (players self)).
  { intros q Hq1 Hq2. unfold start, recorded. cbn [players with_matches].
    now rewrite !get_registered_other. }
  assert (Hl : (List.length (players start)
                <= 2 + List.length (players self))%nat).
  { unfold start, recorded. cbn [players with_matches].
    pose proof (length_registered p2 (registered p1 self)) as L2.
    pose proof (length_registered p1 self) as L1.
    simpl. eapply Nat.le_trans; [exact L2 | now apply le_n_S]. }
  destruct (machine_match_outcome rt p1 p2 s self Hv)
    as [(e & He & Hrun)|[(e & a & He & Hrun)|(a & b & Hrun)]];
    fold start in Hrun; rewrite Hrun;
    cbn [value final printed players matches initial_rating k_factor
         with_players].
  - repeat split; eauto.
  - repeat split; eauto.
    + apply mem_set_same.
    + now apply mem_set_mono.
    + intros q Hq1 Hq2. rewrite get_set_other by congruence. now apply Hq.
    + now rewrite length_set, M1.
  - assert (M2' : Dict.mem p2 (Dict.set p1 a (players start)) = true)
      by now apply mem_set_mono.
    repeat split; eauto.
    + apply mem_set_mono, mem_set_same.
    + apply mem_set_same.
    + intros q Hq1 Hq2. rewrite !get_set_other by congruence. now apply Hq.
    + now rewrite length_set, M2', length_set, M1.
Qed.

(** ** C5: no lookup fails while a valid match is recorded *)

(** C5.  Whatever the arithmetic of the machine does, [add_match_result]
    with a score among 1, 0.5 and 0 never raises [KeyError]: both players
    are registered before any rating is read, so every lookup of
    [_expected_score] and [_update_rating] succeeds.  The call returns
    normally or raises [OverflowError] or [ZeroDivisionError] from the
    arithmetic, and in each case both players are keys of the mapping
    afterwards. *)
Theorem C5_valid_match_never_raises_KeyError
        (rt : runtime) (p1 p2 : string) (s : R) (self : Elo) :
  s = 1 \/ s = 1 / 2 \/ s = 0 ->
  let after := Machine.add_match_result rt p1 p2 s self in
  (forall k, value after <> Raise (KeyError k)) /\
  (value after = Ok tt \/ value after = Raise OverflowError \/
   value after = Raise ZeroDivisionError) /\
  Dict.mem p1 (players (final after)) = true /\
  Dict.mem p2 (players (final after)) = true.
Proof.
  intros Hs. apply valid_score_iff in Hs. cbv zeta.
  destruct (machine_match_final rt p1 p2 s self Hs)
    as (_ & Hval & _ & _ & _ & M1 & M2 & _).
  repeat split; auto.
  - intros k Hk. destruct Hval as [Hok|(e & [He|He] & Hr)];
      rewrite Hk in *; subst; discriminate.
  - destruct Hval as [Hok|(e & [He|He] & Hr)]; subst; auto.
Qed.

Lemma C5_valid_match_witness :
  let after := Machine.add_match_result (Machine.exact float_decimal)
                 "a" "b" 1 (Elo_init [] 1500 32) in
  (forall k, value after <> Raise (KeyError k)) /\
  (value after = Ok tt \/ value after = Raise OverflowError \/
   value after = Raise ZeroDivisionError) /\
  Dict.mem "a" (players (final after)) = true /\
  Dict.mem "b" (players (final after)) = true.
Proof.
  apply (C5_valid_match_never_raises_KeyError (Machine.exact float_decimal)
           "a" "b" 1 (Elo_init [] 1500 32)).
  left. reflexivity.
Defined.

(** ** Lookups, one update and one match on the machine *)

(** Called with a player that is not registered, [_expected_score] and
    [_update_rating] raise [KeyError] for the first missing name
    ([player1] before [player2]), print nothing and leave the store as it
    was.  With both players registered neither raises [KeyError]: each
    returns or raises an arithmetic exception, and [_expected_score]
    leaves the store as it was in both cases. *)
Theorem unregistered_player_raises_KeyError
        (rt : runtime) (p1 p2 : string) (s : R) (self : Elo) :
  (Dict.mem p1 (players self) = false ->
   Machine._expected_score rt p1 p2 self
   = mkOut (Raise (KeyError p1)) self [] /\
   Machine._update_rating rt p1 p2 s self
   = mkOut (Raise (KeyError p1)) self []) /\
  (Dict.mem p1 (players self) = true ->
   Dict.mem p2 (players self) = false ->
   Machine._expected_score rt p1 p2 self
   = mkOut (Raise (KeyError p2)) self [] /\
   Machine._update_rating rt p1 p2 s self
   = mkOut (Raise (KeyError p2)) self []) /\
  (Dict.mem p1 (players self) = true ->
   Dict.mem p2 (players self) = true ->
   final (Machine._expected_score rt p1 p2 self) = self /\
   printed (Machine._expected_score rt p1 p2 self) = [] /\
   forall k,
     value (Machine._expected_score rt p1 p2 self) <> Raise (KeyError k) /\
     value (Machine._update_rating rt p1 p2 s self) <> Raise (KeyError k)).
Proof.
  split; [|split].
  - intros H1. apply mem_false_get in H1.
    pose proof (machine_expected_score_missing_first rt p1 p2 self H1) as He.
    split; [exact He|].
    unfold Machine._update_rating. now rewrite (bind_raise _ _ _ _ _ _ He).
  - intros H1 H2. apply mem_true_get in H1. destruct H1 as [r1 H1].
    apply mem_false_get in H2.
    pose proof (machine_expected_score_missing_second rt p1 p2 r1 self H1 H2)
      as He.
    split; [exact He|].
    unfold Machine._update_rating. now rewrite (bind_raise _ _ _ _ _ _ He).
  - intros H1 H2. apply mem_true_get in H1. destruct H1 as [r1 H1].
    apply mem_true_get in H2. destruct H2 as [r2 H2].
    rewrite (machine_expected_score_run rt _ _ _ _ _ H1 H2).
    rewrite (machine_update_rating_run rt _ _ s _ _ _ H1 H2).
    cbn [value final printed]. repeat split.
    + destruct (expected_value rt r1 r2); discriminate.
    + destruct (updated_value rt (k_factor self) r1 r2 s); discriminate.
Qed.

Lemma unregistered_player_raises_KeyError_witness :
  (Machine._expected_score (Machine.exact float_decimal) "x" "a"
     (Elo_init ["a"] 1500 32)
   = mkOut (Raise (KeyError "x")) (Elo_init ["a"] 1500 32) [] /\
   Machine._update_rating (Machine.exact float_decimal) "x" "a" 1
     (Elo_init ["a"] 1500 32)
   = mkOut (Raise (KeyError "x")) (Elo_init ["a"] 1500 32) []) /\
  (Machine._expected_score (Machine.exact float_decimal) "a" "y"
     (Elo_init ["a"] 1500 32)
   = mkOut (Raise (KeyError "y")) (Elo_init ["a"] 1500 32) [] /\
   Machine._update_rating (Machine.exact float_decimal) "a" "y" 1
     (Elo_init ["a"] 1500 32)
   = mkOut (Raise (KeyError "y")) (Elo_init ["a"] 1500 32) []).
Proof.
  pose proof (unregistered_player_raises_KeyError
                (Machine.exact float_decimal) "x" "a" 1
                (Elo_init ["a"] 1500 32)) as Hx.
  pose proof (unregistered_player_raises_KeyError
                (Machine.exact float_decimal) "a" "y" 1
                (Elo_init ["a"] 1500 32)) as Hy.
  split.
  - apply (proj1 Hx). reflexivity.
  - apply (proj1 (proj2 Hy)); reflexivity.
Defined.

(** With both players registered, [_update_rating] prints nothing and
    either returns, having replaced the rating of [player1] by the
    computed one, or raises an arithmetic exception with the store as it
    was.  In both cases every other rating, the order of the keys and
    the match history stay as they were. *)
Theorem update_rating_changes_one_rating
        (rt : runtime) (p1 p2 : string) (s r1 r2 : R) (self : Elo) :
  Dict.get p1 (players self) = Some r1 ->
  Dict.get p2 (players self) = Some r2 ->
  let after := Machine._update_rating rt p1 p2 s self in
  printed after = [] /\
  (forall q, q <> p1 ->
             Dict.get q (players (final after)) = Dict.get q (players self)) /\
  Dict.keys (players (final after)) = Dict.keys (players self) /\
  matches (final after) = matches self /\
  ((exists r, updated_value rt (k_factor self) r1 r2 s = Val r /\
              value after = Ok tt /\
              Dict.get p1 (players (final after)) = Some r) \/
   (exists e, arithmetic_error e /\ value after = Raise e /\
              final after = self)).
Proof.
  intros G1 G2. cbv zeta.
  rewrite (machine_update_rating_run rt _ _ s _ _ _ G1 G2).
  destruct (updated_value rt (k_factor self) r1 r2 s) as [r| |];
    cbn [value final printed players matches with_players].
  - repeat split.
    + intros q Hq. apply get_set_other. congruence.
    + rewrite keys_set.
      assert (Hm : Dict.mem p1 (players self) = true)
        by (apply mem_true_get; eauto).
      now rewrite Hm.
    + left. exists r. repeat split. apply get_set_same.
  - repeat split. right. exists OverflowError. repeat split. now left.
  - repeat split. right. exists ZeroDivisionError. repeat split. now right.
Qed.

Lemma update_rating_changes_one_rating_witness :
  let self := Elo_init ["a"; "b"] 1500 32 in
  let after := Machine._update_rating (Machine.exact float_decimal)
                 "a" "b" 1 self in
  printed after = [] /\
  (forall q, q <> "a" ->
             Dict.get q (players (final after)) = Dict.get q (players self)) /\
  Dict.keys (players (final after)) = Dict.keys (players self) /\
  matches (final after) = matches self /\
  ((exists r, updated_value (Machine.exact float_decimal) (k_factor self)
                1500 1500 1 = Val r /\
              value after = Ok tt /\
              Dict.get "a" (players (final after)) = Some r) \/
   (exists e, arithmetic_error e /\ value after = Raise e /\
              final after = self)).
Proof.
  apply (update_rating_changes_one_rating (Machine.exact float_decimal)
           "a" "b" 1 1500 1500 (Elo_init ["a"; "b"] 1500 32));
    reflexivity.
Defined.

(** [add_match_result] with a score of 1, 0.5 or 0 prints nothing and
    appends exactly its own record to the history, whether it then
    returns or an update raises an arithmetic exception; it leaves the
    rating of every player other than the two named ones as it was,
    keeps the configuration, and adds at most two entries to the
    dictionary. *)
Theorem match_touches_only_its_players
        (rt : runtime) (p1 p2 : string) (s : R) (self : Elo) :
  s = 1 \/ s = 1 / 2 \/ s = 0 ->
  let after := Machine.add_match_result rt p1 p2 s self in
  printed after = [] /\
  matches (final after) = matches self ++ [(p1, p2, s)] /\
  initial_rating (final after) = initial_rating self /\
  k_factor (final after) = k_factor self /\
  (forall q, q <> p1 -> q <> p2 ->
             Dict.get q (players (final after)) = Dict.get q (players self)) /\
  (List.length (players (final after))
   <= 2 + List.length (players self))%nat.
Proof.
  intros Hs. apply valid_score_iff in Hs. cbv zeta.
  destruct (machine_match_final rt p1 p2 s self Hs)
    as (Hp & _ & Hm & Hi & Hk & _ & _ & Hq & Hl).
  auto 10.
Qed.

Lemma match_touches_only_its_players_witness :
  let self := Elo_init ["f"] 1500 32 in
  let after := Machine.add_match_result (Machine.exact float_decimal)
                 "a" "b" (1 / 2) self in
  printed after = [] /\
  matches (final after) = matches self ++ [("a", "b", 1 / 2)] /\
  initial_rating (final after) = initial_rating self /\
  k_factor (final after) = k_factor self /\
  (forall q, q <> "a" -> q <> "b" ->
             Dict.get q (players (final after)) = Dict.get q (players self)) /\
  (List.length (players (final after))
   <= 2 + List.length (players self))%nat.
Proof.
  apply (match_touches_only_its_players (Machine.exact float_decimal)
           "a" "b" (1 / 2) (Elo_init ["f"] 1500 32)).
  right. left. reflexivity.
Defined.

(** ** C10: bounds under rounded arithmetic *)

Lemma round_le_fixed (round : R -> R) (x c : R) :
  (forall x y, x <= y -> round x <= round y) ->
  round c = c -> x <= c -> round x <= c.
Proof. intros Hmono Hc Hx. rewrite <- Hc. now apply Hmono. Qed.

Lemma round_ge_fixed (round : R -> R) (x c : R) :
  (forall x y, x <= y -> round x <= round y) ->
  round c = c -> c <= x -> c <= round x.
Proof. intros Hmono Hc Hx. rewrite <- Hc. now apply Hmono. Qed.

Lemma rounded_expected_value (round : R -> R) (rt : runtime) (r1 r2 : R) :
  rounding round -> rounds_with round rt ->
  match num_pow rt 10 (exponent_of round r1 r2) with
  | Val p =>
      expected_value rt r1 r2 = Val (round (1 / round (1 + p))) /\
      0 <= round (1 / round (1 + p)) <= 1
  | Overflow => expected_value rt r1 r2 = Overflow
  | ZeroDivision => expected_value rt r1 r2 = ZeroDivision
  end.
Proof.
  intros (Hmono & H0 & H1 & Hm1) (Hsub & Hadd & Hmul & Hdiv & Hpow).
  unfold expected_value, exponent_of.
  rewrite Hsub. cbn [arith_bind]. rewrite Hdiv by lra. cbn [arith_bind].
  destruct (num_pow rt 10 (round (round (r2 - r1) / 400))) as [p| |] eqn:Ep;
    cbn [arith_bind]; try reflexivity.
  apply Hpow in Ep. rewrite Hadd. cbn [arith_bind].
  assert (Hq : 1 <= round (1 + p))
    by (apply round_ge_fixed; auto; lra).
  rewrite Hdiv by lra. split; [reflexivity|].
  assert (Hinv : 0 < 1 / round (1 + p) <= 1).
  { split.
    - apply Rdiv_lt_0_compat; lra.
    - apply (Rmult_le_reg_r (round (1 + p))); [lra|].
      unfold Rdiv. rewrite Rmult_assoc, Rinv_l by lra. lra. }
  split.
  - apply round_ge_fixed; auto; lra.
  - apply round_le_fixed; auto; lra.
Qed.



Lemma exact_rounding : rounding (fun x => x).
Proof. unfold rounding. repeat split; auto. Qed.

Lemma exact_rounds (float : string -> option R) :
  rounds_with (fun x => x) (Machine.exact float).
Proof.
  unfold rounds_with. cbn [num_sub num_add num_mul num_div num_pow
                            Machine.exact].
  repeat split; auto.
  - intros a b Hb. destruct (Req_dec_T b 0); [contradiction | reflexivity].
  - intros x p H. injection H as <-. left. apply Rpower10_pos.
Qed.


(** ** The exact reading is the machine reading at [Machine.exact] *)

Lemma exact_expected_value (float : string -> option R) (r1 r2 : R) :
  expected_value (Machine.exact float) r1 r2 = Val (expected r1 r2).
Proof.
  unfold expected_value, expected.
  cbn [num_sub num_add num_div num_pow Machine.exact arith_bind].
  destruct (Req_dec_T 400 0) as [H|_]; [lra|]. cbn [arith_bind].
  pose proof (Rpower10_pos ((r2 - r1) / 400)) as Hp.
  destruct (Req_dec_T (1 + Rpower 10 ((r2 - r1) / 400)) 0) as [H|_];
    [lra | reflexivity].
Qed.

Lemma exact_updated_value (float : string -> option R) (k r1 r2 s : R) :
  updated_value (Machine.exact float) k r1 r2 s
  = Val (r1 + k * (s - expected r1 r2)).
Proof.
  unfold updated_value. rewrite exact_expected_value. reflexivity.
Qed.

Lemma exact_expected_score (float : string -> option R) (p1 p2 : string)
      (self : Elo) :
  Machine._expected_score (Machine.exact float) p1 p2 self
  = _expected_score p1 p2 self.
Proof.
  destruct (Dict.get p1 (players self)) as [r1|] eqn:G1.
  - destruct (Dict.get p2 (players self)) as [r2|] eqn:G2.
    + rewrite (machine_expected_score_run _ _ _ _ _ _ G1 G2).
      rewrite (expected_score_run _ _ _ _ _ G1 G2).
      now rewrite exact_expected_value.
    + rewrite (machine_expected_score_missing_second _ _ _ _ _ G1 G2).
      now rewrite (expected_score_missing_second _ _ _ _ G1 G2).
  - rewrite (machine_expected_score_missing_first _ _ _ _ G1).
    now rewrite (expected_score_missing_first _ _ _ G1).
Qed.

Lemma exact_update_rating (float : string -> option R) (p1 p2 : string)
      (s : R) (self : Elo) :
  Machine._update_rating (Machine.exact float) p1 p2 s self
  = _update_rating p1 p2 s self.
Proof.
  destruct (Dict.get p1 (players self)) as [r1|] eqn:G1.
  - destruct (Dict.get p2 (players self)) as [r2|] eqn:G2.
    + rewrite (machine_update_rating_run _ _ _ s _ _ _ G1 G2).
      rewrite (update_rating_run _ _ s _ _ _ G1 G2).
      now rewrite exact_updated_value.
    + unfold Machine._update_rating, _update_rating.
      rewrite (bind_raise _ _ _ _ _ _
                 (machine_expected_score_missing_second _ _ _ _ _ G1 G2)).
      now rewrite (bind_raise _ _ _ _ _ _
                     (expected_score_missing_second _ _ _ _ G1 G2)).
  - unfold Machine._update_rating, _update_rating.
    rewrite (bind_raise _ _ _ _ _ _
               (machine_expected_score_missing_first _ _ _ _ G1)).
    now rewrite (bind_raise _ _ _ _ _ _
                   (expected_score_missing_first _ _ _ G1)).
Qed.

Lemma exact_add_match_result (float : string -> option R) (p1 p2 : string)
      (s : R) (self : Elo) :
  Machine.add_match_result (Machine.exact float) p1 p2 s self
  = add_match_result p1 p2 s self.
Proof.
  unfold Machine.add_match_result, add_match_result.
  destruct (negb (valid_score s)); [reflexivity|].
  apply bind_ext; [reflexivity|]. intros _ s1.
  apply bind_ext; [reflexivity|]. intros _ s2.
  apply bind_ext; [reflexivity|]. intros _ s3.
  apply bind_ext; [apply exact_update_rating|]. intros _ s4.
  cbn [num_sub Machine.exact].
  rewrite (bind_pure _ _ _ _ (number_run _ s4)). cbn [arith_res].
  apply exact_update_rating.
Qed.

Lemma exact_from_txt_loop (float : string -> option R)
      (lines : list string) (self : Elo) :
  Machine.from_txt_loop (Machine.exact float) lines self
  = from_txt_loop float lines self.
Proof.
  revert self. induction lines as [|line rest IH]; intros self.
  - reflexivity.
  - cbn [Machine.from_txt_loop from_txt_loop].
    apply bind_ext; [|intros _ self'; apply IH].
    unfold Machine.from_txt_body, from_txt_body.
    cbn [str_fields str_float Machine.exact].
    apply bind_ext; [reflexivity|]. intros player1 s1.
    apply bind_ext; [reflexivity|]. intros player2 s2.
    apply bind_ext; [reflexivity|]. intros field2 s3.
    apply bind_ext; [reflexivity|]. intros score1 s4.
    apply exact_add_match_result.
Qed.

(** The two readings of [from_txt] agree, the missing file being the
    reading that raises [FileNotFoundError]. *)
Lemma exact_from_txt (float : string -> option R)
      (file : option (list string)) (self : Elo) :
  Machine.from_txt (Machine.exact float) (Machine.reading_of file) self
  = from_txt float file self.
Proof.
  unfold Machine.from_txt, from_txt. destruct file as [lines|].
  - cbn [Machine.reading_of].
    apply bind_ext; [reflexivity|]. intros [l|] s1; [|reflexivity].
    unfold try_print. now rewrite exact_from_txt_loop.
  - cbn [Machine.reading_of is_FileNotFoundError].
    apply bind_ext; [reflexivity|]. intros [l|] s1; [|reflexivity].
    unfold try_print. now rewrite exact_from_txt_loop.
Qed.

Lemma exact_plot_ratings (float : string -> option R) (save_path : string)
      (self : Elo) :
  Machine.plot_ratings (Machine.exact float) save_path self
  = plot_ratings save_path self.
Proof.
  unfold Machine.plot_ratings, plot_ratings.
  apply bind_ext; [reflexivity|]. intros self0 s1.
  destruct (sort_desc (Dict.items (players self0))); reflexivity.
Qed.

(** ** C9: the line at which [from_txt] stops *)

Lemma machine_from_txt_read (rt : runtime) (lines : list string)
      (self : Elo) :
  Machine.from_txt rt (ReadOk lines) self
  = try_print (Machine.from_txt_loop rt lines) self.
Proof.
  unfold Machine.from_txt.
  now rewrite (bind_pure (ret (Some lines)) _ self (Ok (Some lines)) eq_refl).
Qed.

Lemma bind_value_ok {B : Type} (m : M unit) (f : unit -> M B)
      (self : Elo) (b : B) :
  value (bind m f self) = Ok b ->
  value (m self) = Ok tt /\ value (f tt (final (m self))) = Ok b.
Proof.
  unfold bind. destruct (value (m self)) as [[]|e]; cbn [value]; auto.
  discriminate.
Qed.

(** A loop whose first lines return goes on from where they stopped. *)
Lemma machine_loop_app (rt : runtime) (pre rest : list string)
      (self : Elo) :
  value (Machine.from_txt_loop rt pre self) = Ok tt ->
  Machine.from_txt_loop rt (pre ++ rest) self =
  mkOut (value (Machine.from_txt_loop rt rest
                  (final (Machine.from_txt_loop rt pre self))))
        (final (Machine.from_txt_loop rt rest
                  (final (Machine.from_txt_loop rt pre self))))
        (printed (Machine.from_txt_loop rt pre self)
         ++ printed (Machine.from_txt_loop rt rest
                       (final (Machine.from_txt_loop rt pre self)))).
Proof.
  revert self. induction pre as [|line pre IH]; intros self Hv.
  - cbn. now rewrite outcome_eta.
  - cbn [Machine.from_txt_loop app] in *.
    apply bind_value_ok in Hv. destruct Hv as [Hb Hrest].
    rewrite !(bind_returns _ _ _ Hb). cbn [value final printed].
    rewrite (IH _ Hrest). cbn [value final printed].
    now rewrite app_assoc.
Qed.

Lemma machine_body_malformed (rt : runtime) (line : string) (self : Elo) :
  machine_parse rt line = None ->
  exists e : exn,
    Machine.from_txt_body rt line self = mkOut (Raise e) self [].
Proof.
  unfold machine_parse, Machine.from_txt_body.
  destruct (str_fields rt line) as [|f0 [|f1 [|f2 rest]]];
    try (intros _; exists IndexError; reflexivity).
  destruct (str_float rt f2) as [r|] eqn:Ef; [discriminate|].
  intros _. exists ValueError.
  unfold getitem, bind, ret; simpl. rewrite Ef. reflexivity.
Qed.

(** C9, amended.  Whatever the machine's arithmetic and string functions
    do: when the lines before it are ingested without an exception, the
    first line whose ingestion raises (a malformed line, or a line whose
    recording raises an arithmetic exception) ends the ingestion.
    [from_txt] then returns normally, the exception is printed once, the
    store is the one the earlier lines and the raising line left, and the
    lines after it are not read.  A malformed line itself changes and
    prints nothing. *)
Theorem C9_raising_line_stops_ingestion
        (rt : runtime) (pre post : list string) (bad : string) (e : exn)
        (self : Elo) :
  value (Machine.from_txt_loop rt pre self) = Ok tt ->
  value (Machine.from_txt_body rt bad
           (final (Machine.from_txt_loop rt pre self))) = Raise e ->
  let o := Machine.from_txt rt (ReadOk (pre ++ bad :: post)) self in
  let o_pre := Machine.from_txt rt (ReadOk pre) self in
  let o_bad := Machine.from_txt_body rt bad (final o_pre) in
  value o = Ok tt /\
  final o = final o_bad /\
  printed o = printed o_pre ++ printed o_bad ++ [PrintExn e] /\
  (machine_parse rt bad = None ->
   final o = final o_pre /\ printed o = printed o_pre ++ [PrintExn e]).
Proof.
  intros Hpre Hbad. cbv zeta. rewrite !machine_from_txt_read.
  rewrite (try_print_of_returning _ _ Hpre).
  set (mid := final (Machine.from_txt_loop rt pre self)) in *.
  assert (Hrun : try_print (Machine.from_txt_loop rt (pre ++ bad :: post))
                   self
                 = mkOut (Ok tt) (final (Machine.from_txt_body rt bad mid))
                         (printed (Machine.from_txt_loop rt pre self)
                          ++ printed (Machine.from_txt_body rt bad mid)
                          ++ [PrintExn e])).
  { assert (E : Machine.from_txt_loop rt (bad :: post) mid
                = mkOut (Raise e) (final (Machine.from_txt_body rt bad mid))
                        (printed (Machine.from_txt_body rt bad mid))).
    { cbn [Machine.from_txt_loop]. unfold bind. now rewrite Hbad. }
    unfold try_print. rewrite (machine_loop_app rt pre (bad :: post) self Hpre).
    fold mid. rewrite E. cbn [value final printed].
    now rewrite app_assoc. }
  rewrite Hrun. cbn [value final printed].
  split; [reflexivity|]. split; [reflexivity|]. split; [reflexivity|].
  intros Hparse.
  destruct (machine_body_malformed rt bad mid Hparse) as [e' He'].
  rewrite He'. cbn [final printed]. split; reflexivity.
Qed.

Lemma C9_raising_line_witness :
  let rt := Machine.exact float_decimal in
  let self := Elo_init [] 1500 32 in
  let o := Machine.from_txt rt (ReadOk (["a b 1"] ++ "c d x" :: ["e f 1"]))
             self in
  let o_pre := Machine.from_txt rt (ReadOk ["a b 1"]) self in
  value o = Ok tt /\
  final o = final o_pre /\
  printed o = printed o_pre ++ [PrintExn ValueError].
Proof.
  cbv zeta.
  assert (Hpre : value (Machine.from_txt_loop (Machine.exact float_decimal)
                          ["a b 1"] (Elo_init [] 1500 32)) = Ok tt).
  { rewrite exact_from_txt_loop. cbn [from_txt_loop].
    rewrite (bind_returns _ _ _
               (from_txt_body_returns float_decimal "a b 1" _
                  ltac:(unfold parse_line; cbn; discriminate))).
    reflexivity. }
  destruct (C9_raising_line_stops_ingestion (Machine.exact float_decimal)
              ["a b 1"] ["e f 1"] "c d x" ValueError (Elo_init [] 1500 32)
              Hpre eq_refl) as (Hv & _ & _ & Hmal).
  destruct (Hmal eq_refl) as [Hf Hp]. auto.
Defined.

(** ** Every machine call is a sequence of assignments and valid appends *)

Lemma evolving_number (a : arith) : evolving (Machine.number a).
Proof. intros self. rewrite number_run. apply evolves_refl. Qed.

Lemma evolving_machine_expected_score (rt : runtime) (p1 p2 : string) :
  evolving (Machine._expected_score rt p1 p2).
Proof.
  unfold Machine._expected_score.
  apply evolving_bind; [apply evolving_players_getitem|]. intros r1.
  apply evolving_bind; [apply evolving_players_getitem|]. intros r2.
  repeat (apply evolving_bind; [apply evolving_number|]; intros ?).
  apply evolving_number.
Qed.

Lemma evolving_machine_update_rating (rt : runtime) (p1 p2 : string)
      (s : R) :
  evolving (Machine._update_rating rt p1 p2 s).
Proof.
  unfold Machine._update_rating.
  apply evolving_bind; [apply evolving_machine_expected_score|]. intros e.
  apply evolving_bind; [apply evolving_players_getitem|]. intros r1.
  apply evolving_bind; [intros self; apply evolves_refl|]. intros self0.
  repeat (apply evolving_bind; [apply evolving_number|]; intros ?).
  apply evolving_players_setitem.
Qed.

Lemma evolves_recorded (p1 p2 : string) (s : R) (self : Elo) :
  valid_score s = true -> evolves self (recorded p1 p2 s self).
Proof.
  intros Hv. unfold recorded. apply evolves_append; auto.
  - eapply evolves_trans; apply evolves_registered.
  - apply registered_mono, registered_mem.
  - apply registered_mem.
Qed.

Lemma evolving_machine_add_match_result (rt : runtime) (p1 p2 : string)
      (s : R) :
  evolving (Machine.add_match_result rt p1 p2 s).
Proof.
  intros self. destruct (valid_score s) eqn:E.
  - rewrite (machine_add_match_result_valid _ _ _ _ _ E).
    eapply evolves_trans; [apply (evolves_recorded p1 p2 s self E)|].
    generalize (recorded p1 p2 s self). clear self.
    apply evolving_bind; [apply evolving_machine_update_rating|]. intros _.
    apply evolving_bind; [apply evolving_number|]. intros score2.
    apply evolving_machine_update_rating.
  - rewrite (machine_add_match_result_invalid _ _ _ _ _ E).
    apply evolves_refl.
Qed.

Lemma evolving_machine_from_txt_loop (rt : runtime) (lines : list string) :
  evolving (Machine.from_txt_loop rt lines).
Proof.
  induction lines as [|line rest IH]; cbn [Machine.from_txt_loop].
  - apply evolving_ret.
  - apply evolving_bind; [|intros _; exact IH].
    unfold Machine.from_txt_body.
    apply evolving_bind; [apply evolving_getitem|]. intros player1.
    apply evolving_bind; [apply evolving_getitem|]. intros player2.
    apply evolving_bind; [apply evolving_getitem|]. intros field2.
    apply evolving_bind.
    + destruct (str_float rt field2);
        [apply evolving_ret | apply evolving_raise].
    + intros score1. apply evolving_machine_add_match_result.
Qed.

Lemma evolving_machine_from_txt (rt : runtime) (file : reading) :
  evolving (Machine.from_txt rt file).
Proof.
  unfold Machine.from_txt. apply evolving_bind.
  - destruct file as [lines|e]; [apply evolving_ret|].
    destruct (is_FileNotFoundError e); [|apply evolving_raise].
    apply evolving_bind; [apply evolving_print|].
    intros _. apply evolving_ret.
  - intros [lines|]; apply evolving_try_print;
      [apply evolving_machine_from_txt_loop | apply evolving_raise].
Qed.

Lemma evolving_machine_plot_ratings (rt : runtime) (save_path : string) :
  evolving (Machine.plot_ratings rt save_path).
Proof.
  intros self. unfold Machine.plot_ratings, bind, get_self.
  cbn [value final printed].
  destruct (sort_desc (Dict.items (players self))) as [|x l];
    [apply evolves_refl|].
  destruct (chart rt _ _ save_path); apply evolves_refl.
Qed.

(** ** The chart, and reading a whole file, on the machine *)



(** [from_txt] lets out no exception of its loop, whatever the lines
    hold.  When the reading raises [FileNotFoundError] it prints it, then
    prints the error of the unbound [matches], returns normally and
    leaves the store as it was.  Any other exception of the reading (of
    the decoder, a directory, a refused permission) leaves [from_txt],
    with the store as it was. *)
Theorem from_txt_lets_out_only_reading_errors
        (rt : runtime) (self : Elo) :
  (forall lines, value (Machine.from_txt rt (ReadOk lines) self) = Ok tt) /\
  Machine.from_txt rt (ReadRaises FileNotFoundError) self
  = mkOut (Ok tt) self
          [PrintExn FileNotFoundError; PrintExn UnboundLocalError] /\
  (forall e, is_FileNotFoundError e = false ->
             Machine.from_txt rt (ReadRaises e) self
             = mkOut (Raise e) self []).
Proof.
  split; [|split].
  - intros lines. rewrite machine_from_txt_read. apply try_print_returns.
  - reflexivity.
  - intros e He. unfold Machine.from_txt. rewrite He. reflexivity.
Qed.

Lemma from_txt_lets_out_only_reading_errors_witness :
  Machine.from_txt (Machine.exact float_decimal)
    (ReadRaises (ExternalError "UnicodeDecodeError"))
    (Elo_init ["a"] 1500 32)
  = mkOut (Raise (ExternalError "UnicodeDecodeError"))
          (Elo_init ["a"] 1500 32) [].
Proof.
  apply (proj2 (proj2 (from_txt_lets_out_only_reading_errors
                         (Machine.exact float_decimal)
                         (Elo_init ["a"] 1500 32)))).
  reflexivity.
Defined.

Lemma machine_body_well_formed (rt : runtime) (line p1 p2 : string) (s : R)
      (self : Elo) :
  machine_parse rt line = Some (p1, p2, s) ->
  Machine.from_txt_body rt line self
  = Machine.add_match_result rt p1 p2 s self.
Proof.
  unfold machine_parse, Machine.from_txt_body.
  destruct (str_fields rt line) as [|f0 [|f1 [|f2 rest]]];
    try discriminate.
  destruct (str_float rt f2) as [r|] eqn:Ef; [|discriminate].
  intros H. injection H as <- <- <-.
  unfold getitem, bind, ret; simpl. rewrite Ef. simpl.
  destruct (Machine.add_match_result rt f0 f1 r self); reflexivity.
Qed.

Lemma machine_loop_well_formed (rt : runtime) (lines : list string)
      (ms : list (string * string * R)) (self : Elo) :
  map (machine_parse rt) lines = map Some ms ->
  Machine.from_txt_loop rt lines self = machine_add_match_results rt ms self.
Proof.
  revert ms self. induction lines as [|line lines IH]; intros ms self Hp.
  - destruct ms; [reflexivity | discriminate].
  - destruct ms as [|[[p1 p2] s] ms]; [discriminate|].
    cbn [map] in Hp. injection Hp as Hline Hrest.
    cbn [Machine.from_txt_loop machine_add_match_results].
    apply bind_ext.
    + now apply machine_body_well_formed.
    + intros _ self'. now apply IH.
Qed.

(** When every line of the file yields three fields of which the third
    is a number, [from_txt] does what calling [add_match_result] on each
    line's triple, in the order of the file and inside the [try], does:
    the calls run until one raises, and that exception is printed, not
    raised. *)
Theorem from_txt_records_each_line
        (rt : runtime) (lines : list string)
        (ms : list (string * string * R)) (self : Elo) :
  map (machine_parse rt) lines = map Some ms ->
  Machine.from_txt rt (ReadOk lines) self
  = try_print (machine_add_match_results rt ms) self.
Proof.
  intros Hp. rewrite machine_from_txt_read. unfold try_print.
  now rewrite (machine_loop_well_formed rt lines ms self Hp).
Qed.

Lemma from_txt_records_each_line_witness :
  Machine.from_txt (Machine.exact float_decimal)
    (ReadOk ["a b 1"; "  b   c 0 extra"]) (Elo_init [] 1500 32)
  = try_print
      (machine_add_match_results (Machine.exact float_decimal)
         [("a", "b", 1); ("b", "c", 0)])
      (Elo_init [] 1500 32).
Proof.
  apply (from_txt_records_each_line (Machine.exact float_decimal)).
  unfold machine_parse. cbn. repeat f_equal; lra.
Defined.

(** ** The statements at the end of the file, on the machine *)

Lemma machine_from_txt_returns (rt : runtime) (file : reading)
      (self : Elo) :
  (forall e, file = ReadRaises e -> is_FileNotFoundError e = true) ->
  value (Machine.from_txt rt file self) = Ok tt.
Proof.
  intros Hfile. destruct file as [lines|e].
  - rewrite machine_from_txt_read. apply try_print_returns.
  - unfold Machine.from_txt. rewrite (Hfile e eq_refl). reflexivity.
Qed.

Lemma machine_plot_final (rt : runtime) (save_path : string) (self : Elo) :
  final (Machine.plot_ratings rt save_path self) = self.
Proof.
  unfold Machine.plot_ratings, bind, get_self. cbn [value final printed].
  destruct (sort_desc (Dict.items (players self))) as [|x l];
    [reflexivity|].
  destruct (chart rt _ _ save_path); reflexivity.
Qed.

Lemma machine_match_returned (rt : runtime) (p1 p2 : string) (s : R)
      (self : Elo) :
  valid_score s = true ->
  matches (final (Machine.add_match_result rt p1 p2 s self))
  = matches self ++ [(p1, p2, s)] /\
  Dict.mem p1 (players (final (Machine.add_match_result rt p1 p2 s self)))
  = true /\
  Dict.mem p2 (players (final (Machine.add_match_result rt p1 p2 s self)))
  = true.
Proof.
  intros Hv.
  destruct (machine_match_final rt p1 p2 s self Hv)
    as (_ & _ & Hm & _ & _ & M1 & M2 & _).
  auto.
Qed.

Lemma evolving_script_tail (rt : runtime) : evolving (script_tail rt).
Proof.
  unfold script_tail.
  repeat (apply evolving_bind;
          [apply evolving_machine_add_match_result|]; intros _).
  apply evolving_bind; [apply evolving_print_rating|]. intros _.
  apply evolving_machine_plot_ratings.
Qed.

(** The closing statements of [elo.py], whatever the machine's arithmetic
    does and whatever [matches.txt] holds, provided that reading it
    raises nothing but [FileNotFoundError].  However they end, the
    players f and c are registered.  If they run to the end, the players
    a, b, d and e are registered too, the history ends with the four
    valid matches in the order of the calls, and the match with the
    score -1 has been refused with a warning. *)
Theorem script_registers_and_records
        (rt : runtime) (file : reading) :
  (forall e, file = ReadRaises e -> is_FileNotFoundError e = true) ->
  let o := Machine.script rt file Elo_default in
  Dict.mem "f" (players (final o)) = true /\
  Dict.mem "c" (players (final o)) = true /\
  (value o = Ok tt ->
   Forall (fun name => Dict.mem name (players (final o)) = true)
          ["a"; "b"; "d"; "e"] /\
   (exists earlier,
       matches (final o)
       = earlier ++ [("a", "b", 1); ("b", "c", 1 / 2); ("c", "d", 0);
                     ("d", "e", 1 / 2)]) /\
   In (WarnInvalid "e" "f" (-1)) (printed o)).
Proof.
  intros Hfile. cbv zeta.
  change (Machine.script rt file Elo_default)
    with ((Machine.from_txt rt file ;; add_player "f" ;; add_player "c" ;;
           script_tail rt) Elo_default).
  rewrite (bind_returns _ _ _ (machine_from_txt_returns rt file _ Hfile)).
  set (s1 := final (Machine.from_txt rt file Elo_default)).
  destruct (add_player_final "f" s1) as [Rf Ff].
  rewrite (bind_returns _ _ _ Rf). set (s2 := final (add_player "f" s1)).
  destruct (add_player_final "c" s2) as [Rc Fc].
  rewrite (bind_returns _ _ _ Rc). set (s3 := final (add_player "c" s2)).
  cbn [value final printed].
  assert (Mf : Dict.mem "f" (players s3) = true).
  { unfold s3. rewrite Fc. apply registered_mono.
    unfold s2. rewrite Ff. apply registered_mem. }
  assert (Mc : Dict.mem "c" (players s3) = true)
    by (unfold s3; rewrite Fc; apply registered_mem).
  pose proof (evolving_script_tail rt s3) as Et.
  split; [exact (evolves_mem _ _ _ Et Mf)|].
  split; [exact (evolves_mem _ _ _ Et Mc)|].
  intros Hok.
  assert (V1 : valid_score 1 = true) by (apply valid_score_iff; auto).
  assert (Vh : valid_score (1 / 2) = true) by (apply valid_score_iff; auto).
  assert (V0 : valid_score 0 = true) by (apply valid_score_iff; auto).
  assert (Vm : valid_score (-1) = false).
  { destruct (valid_score (-1)) eqn:E; auto.
    apply valid_score_iff in E. lra. }
  unfold script_tail in *.
  apply bind_value_ok in Hok as Hok1. destruct Hok1 as [R4 Hok1].
  rewrite (bind_returns _ _ _ R4) in *.
  set (s4 := final (Machine.add_match_result rt "a" "b" 1 s3)) in *.
  cbn [value final printed] in *.
  apply bind_value_ok in Hok1 as Hok2. destruct Hok2 as [R5 Hok2].
  rewrite (bind_returns _ _ _ R5) in *.
  set (s5 := final (Machine.add_match_result rt "b" "c" (1 / 2) s4)) in *.
  cbn [value final printed] in *.
  apply bind_value_ok in Hok2 as Hok3. destruct Hok3 as [R6 Hok3].
  rewrite (bind_returns _ _ _ R6) in *.
  set (s6 := final (Machine.add_match_result rt "c" "d" 0 s5)) in *.
  cbn [value final printed] in *.
  apply bind_value_ok in Hok3 as Hok4. destruct Hok4 as [R7 Hok4].
  rewrite (bind_returns _ _ _ R7) in *.
  set (s7 := final (Machine.add_match_result rt "d" "e" (1 / 2) s6)) in *.
  cbn [value final printed] in *.
  rewrite (bind_returns _ _ _
             (f_equal value
                (machine_add_match_result_invalid rt "e" "f" (-1) s7 Vm))).
  rewrite (machine_add_match_result_invalid rt "e" "f" (-1) s7 Vm).
  cbn [value final printed].
  rewrite (bind_returns print_rating _ s7 eq_refl).
  rewrite print_rating_run. cbn [value final printed].
  rewrite machine_plot_final.
  destruct (machine_match_returned rt "a" "b" 1 s3 V1) as (H4 & Ma & Mb).
  destruct (machine_match_returned rt "b" "c" (1 / 2) s4 Vh) as (H5 & _ & _).
  destruct (machine_match_returned rt "c" "d" 0 s5 V0) as (H6 & _ & Md).
  destruct (machine_match_returned rt "d" "e" (1 / 2) s6 Vh) as (H7 & _ & Me).
  fold s4 in H4, Ma, Mb. fold s5 in H5. fold s6 in H6, Md. fold s7 in H7, Me.
  assert (E45 : evolves s4 s5) by apply evolving_machine_add_match_result.
  assert (E56 : evolves s5 s6) by apply evolving_machine_add_match_result.
  assert (E67 : evolves s6 s7) by apply evolving_machine_add_match_result.
  split; [|split].
  - repeat constructor; auto.
    + apply (evolves_mem s6 s7 _ E67), (evolves_mem s5 s6 _ E56).
      now apply (evolves_mem s4 s5 _ E45).
    + apply (evolves_mem s6 s7 _ E67), (evolves_mem s5 s6 _ E56).
      now apply (evolves_mem s4 s5 _ E45).
    + now apply (evolves_mem s6 s7 _ E67).
  - exists (matches s3). rewrite H7, H6, H5, H4.
    now rewrite <- !app_assoc.
  - do 7 (apply in_or_app; right). left. reflexivity.
Qed.

Lemma exact_match_returns (float : string -> option R) (p1 p2 : string)
      (s : R) (self : Elo) :
  value (Machine.add_match_result (Machine.exact float) p1 p2 s self)
  = Ok tt.
Proof. rewrite exact_add_match_result. apply add_match_result_returns. Qed.

(** Over exact arithmetic and without [matches.txt] the script runs to
    the end. *)
Lemma exact_script_returns (float : string -> option R) :
  value (Machine.script (Machine.exact float)
           (ReadRaises FileNotFoundError) Elo_default) = Ok tt.
Proof.
  set (rt := Machine.exact float).
  unfold Machine.script.
  rewrite (bind_returns
             (Machine.from_txt rt (ReadRaises FileNotFoundError)) _
             Elo_default eq_refl).
  set (s1 := final (Machine.from_txt rt (ReadRaises FileNotFoundError)
                      Elo_default)).
  destruct (add_player_final "f" s1) as [Rf Ff].
  rewrite (bind_returns _ _ _ Rf). set (s2 := final (add_player "f" s1)).
  destruct (add_player_final "c" s2) as [Rc Fc].
  rewrite (bind_returns _ _ _ Rc). set (s3 := final (add_player "c" s2)).
  rewrite (bind_returns _ _ _ (exact_match_returns float "a" "b" 1 s3)).
  set (s4 := final (Machine.add_match_result rt "a" "b" 1 s3)).
  rewrite (bind_returns _ _ _ (exact_match_returns float "b" "c" (1 / 2) s4)).
  set (s5 := final (Machine.add_match_result rt "b" "c" (1 / 2) s4)).
  rewrite (bind_returns _ _ _ (exact_match_returns float "c" "d" 0 s5)).
  set (s6 := final (Machine.add_match_result rt "c" "d" 0 s5)).
  rewrite (bind_returns _ _ _ (exact_match_returns float "d" "e" (1 / 2) s6)).
  set (s7 := final (Machine.add_match_result rt "d" "e" (1 / 2) s6)).
  rewrite (bind_returns _ _ _ (exact_match_returns float "e" "f" (-1) s7)).
  set (s8 := final (Machine.add_match_result rt "e" "f" (-1) s7)).
  rewrite (bind_returns print_rating _ s8 eq_refl).
  rewrite print_rating_run. cbn [value final printed].
  assert (Mf : Dict.mem "f" (players s8) = true).
  { apply (evolves_mem s7 s8); [apply evolving_machine_add_match_result|].
    apply (evolves_mem s6 s7); [apply evolving_machine_add_match_result|].
    apply (evolves_mem s5 s6); [apply evolving_machine_add_match_result|].
    apply (evolves_mem s4 s5); [apply evolving_machine_add_match_result|].
    apply (evolves_mem s3 s4); [apply evolving_machine_add_match_result|].
    unfold s3. rewrite Fc. apply registered_mono.
    unfold s2. rewrite Ff. apply registered_mem. }
  unfold Machine.plot_ratings, bind, get_self. cbn [value final printed].
  pose proof (sort_desc_nil (Dict.items (players s8))) as Hnil.
  destruct (sort_desc (Dict.items (players s8))) as [|x l].
  - assert (Hp : players s8 = []) by now apply Hnil.
    rewrite Hp in Mf. discriminate.
  - reflexivity.
Qed.

Lemma script_registers_and_records_witness :
  let o := Machine.script (Machine.exact float_decimal)
             (ReadRaises FileNotFoundError) Elo_default in
  Forall (fun name => Dict.mem name (players (final o)) = true)
         ["f"; "c"; "a"; "b"; "d"; "e"] /\
  (exists earlier,
      matches (final o)
      = earlier ++ [("a", "b", 1); ("b", "c", 1 / 2); ("c", "d", 0);
                    ("d", "e", 1 / 2)]) /\
  In (WarnInvalid "e" "f" (-1)) (printed o).
Proof.
  destruct (script_registers_and_records (Machine.exact float_decimal)
              (ReadRaises FileNotFoundError)) as (Hf & Hc & Hend).
  - intros e He. injection He as <-. reflexivity.
  - destruct (Hend (exact_script_returns float_decimal))
      as (Hall & Hm & Hw).
    split; [|split; assumption].
    constructor; [exact Hf|]. constructor; [exact Hc|]. exact Hall.
Defined.

(** ** C3: the sum of the two expected scores *)

(** C3, as stated, fails: with the ratings 0 and 200000 the exponent is
    500, the power of ten overflows, and [_expected_score] raises
    [OverflowError] instead of returning a value. *)
Lemma C3_counterexample_power_overflows :
  let self := mkElo [("a", 0); ("b", 200000)] 1500 32 [] in
  Machine._expected_score (bounded_range float_decimal) "a" "b" self
  = mkOut (Raise OverflowError) self [] /\
  ~ exists ea eb : R,
      value (Machine._expected_score (bounded_range float_decimal)
               "a" "b" self) = Ok ea /\
      value (Machine._expected_score (bounded_range float_decimal)
               "b" "a" self) = Ok eb /\
      ea + eb = 1.
Proof.
  cbv zeta.
  assert (Hrun : Machine._expected_score (bounded_range float_decimal)
                   "a" "b" (mkElo [("a", 0); ("b", 200000)] 1500 32 [])
                 = mkOut (Raise OverflowError)
                         (mkElo [("a", 0); ("b", 200000)] 1500 32 []) []).
  { rewrite (machine_expected_score_run (bounded_range float_decimal)
               "a" "b" 0 200000
               (mkElo [("a", 0); ("b", 200000)] 1500 32 [])
               eq_refl eq_refl).
    unfold expected_value.
    cbn [num_sub num_div num_pow num_add bounded_range arith_bind].
    destruct (Req_dec_T 400 0) as [H|_]; [lra|]. cbn [arith_bind].
    destruct (Rle_dec 309 ((200000 - 0) / 400)) as [_|H]; [reflexivity|].
    exfalso. apply H. lra. }
  split; [exact Hrun|].
  intros (ea & eb & Ha & _). rewrite Hrun in Ha. discriminate.
Qed.

Lemma Rabs_le_between_inv (x y : R) : Rabs x <= y -> - y <= x <= y.
Proof. unfold Rabs. destruct (Rcase_abs x); lra. Qed.

(** The reciprocal of a number known up to a relative error. *)
Lemma reciprocal_error (D s e theta u eta : R) :
  1 <= D -> 0 <= theta <= 1 / 2 -> 0 <= u <= 1 / 2 -> 0 <= eta ->
  Rabs (s - D) <= D * theta ->
  Rabs (e - 1 / s) <= u * Rabs (1 / s) + eta ->
  Rabs (e - 1 / D) <= 2 * (theta + u) * (1 / D) + eta.
Proof.
  intros HD Ht Hu He Hs Hr.
  apply Rabs_le_between_inv in Hs.
  assert (Hspos : 0 < s) by nra.
  assert (Hi : 0 < 1 / s) by (apply Rdiv_lt_0_compat; lra).
  assert (Ha : 0 < 1 / D) by (apply Rdiv_lt_0_compat; lra).
  rewrite (Rabs_pos_eq (1 / s)) in Hr by lra.
  apply Rabs_le_between_inv in Hr.
  set (i := 1 / s) in *. set (a := 1 / D) in *.
  assert (His : i * s = 1) by (unfold i; field; lra).
  assert (HaD : a * D = 1) by (unfold a; field; lra).
  assert (Hup : i <= a * (1 + 2 * theta)).
  { assert (H1 : D <= s * (1 + 2 * theta)) by nra.
    assert (H2 : 0 <= i * a) by nra.
    pose proof (Rmult_le_compat_l (i * a) _ _ H2 H1) as H3.
    replace (i * a * D) with (i * (a * D)) in H3 by ring.
    replace (i * a * (s * (1 + 2 * theta)))
      with ((i * s) * a * (1 + 2 * theta)) in H3 by ring.
    rewrite HaD, His in H3. lra. }
  assert (Hlow : a * (1 - theta) <= i).
  { assert (H1 : s * (1 - theta) <= D) by nra.
    assert (H2 : 0 <= i * a) by nra.
    pose proof (Rmult_le_compat_l (i * a) _ _ H2 H1) as H3.
    replace (i * a * D) with (i * (a * D)) in H3 by ring.
    replace (i * a * (s * (1 - theta)))
      with ((i * s) * a * (1 - theta)) in H3 by ring.
    rewrite HaD, His in H3. lra. }
  assert (Hua : 0 <= u * a) by nra.
  assert (Hta : 0 <= theta * a) by nra.
  assert (H1 : i * (1 + u) <= a * (1 + 2 * theta) * (1 + u))
    by (apply Rmult_le_compat_r; lra).
  assert (H2 : a * (1 - theta) * (1 - u) <= i * (1 - u))
    by (apply Rmult_le_compat_r; lra).
  assert (H3 : theta * (u * a) <= 1 / 2 * (u * a))
    by (apply Rmult_le_compat_r; lra).
  assert (H4 : 0 <= theta * (u * a)) by nra.
  apply Rabs_le. split; lra.
Qed.

(** The computed [1 / (1 + p)] against the exact [1 / (1 + P)], when [p]
    is the power [P] up to its error. *)
Lemma rounded_reciprocal_error (round : R -> R) (u eps eta P p : R) :
  accurate u eta round ->
  0 <= u -> 0 <= eps -> 0 <= eta -> 2 * u + eps + 2 * eta <= 1 / 2 ->
  0 < P -> 0 <= p -> Rabs (p - P) <= eps * P + eta ->
  Rabs (round (1 / round (1 + p)) - 1 / (1 + P))
  <= 2 * (3 * u + eps + 2 * eta) * (1 / (1 + P)) + eta.
Proof.
  intros Hacc Hu Heps Heta Hsmall HP Hp Hpow.
  pose proof (Hacc (1 + p)) as Hs.
  rewrite (Rabs_pos_eq (1 + p)) in Hs by lra.
  apply Rabs_le_between_inv in Hs. apply Rabs_le_between_inv in Hpow.
  assert (HuP : 0 <= u * P) by nra.
  assert (HeP : 0 <= eps * P) by nra.
  assert (HhP : 0 <= eta * P) by nra.
  assert (Hup : u * p <= u * (P + eps * P + eta))
    by (apply Rmult_le_compat_l; lra).
  assert (HueP : u * (eps * P) <= u * P).
  { apply Rmult_le_compat_l; [lra|].
    rewrite <- (Rmult_1_l P) at 2. apply Rmult_le_compat_r; lra. }
  assert (Hue : u * eta <= u).
  { rewrite <- (Rmult_1_r u) at 2. apply Rmult_le_compat_l; lra. }
  assert (Hup0 : 0 <= u * p) by nra.
  replace (2 * (3 * u + eps + 2 * eta) * (1 / (1 + P)) + eta)
    with (2 * ((2 * u + eps + 2 * eta) + u) * (1 / (1 + P)) + eta) by ring.
  apply (reciprocal_error (1 + P) (round (1 + p))); try lra.
  - apply Rabs_le. split; lra.
  - apply Hacc.
Qed.

Lemma expected_sum_tolerance (round : R -> R) (u eps eta x p q : R) :
  accurate u eta round ->
  0 <= u -> 0 <= eps -> 0 <= eta -> 2 * u + eps + 2 * eta <= 1 / 2 ->
  0 <= p -> Rabs (p - Rpower 10 x) <= eps * Rpower 10 x + eta ->
  0 <= q -> Rabs (q - Rpower 10 (- x)) <= eps * Rpower 10 (- x) + eta ->
  Rabs (round (1 / round (1 + p)) + round (1 / round (1 + q)) - 1)
  <= 6 * u + 2 * eps + 6 * eta.
Proof.
  intros Hacc Hu Heps Heta Hsmall Hp Hpp Hq Hqq.
  pose proof (Rpower10_pos x) as HP. pose proof (Rpower10_pos (- x)) as HQ.
  pose proof (rounded_reciprocal_error round u eps eta _ p
                Hacc Hu Heps Heta Hsmall HP Hp Hpp) as Ha.
  pose proof (rounded_reciprocal_error round u eps eta _ q
                Hacc Hu Heps Heta Hsmall HQ Hq Hqq) as Hb.
  assert (Hsum : 1 / (1 + Rpower 10 x) + 1 / (1 + Rpower 10 (- x)) = 1).
  { rewrite Rpower_Ropp. field. split; lra. }
  set (A := 1 / (1 + Rpower 10 x)) in *.
  set (B := 1 / (1 + Rpower 10 (- x))) in *.
  apply Rabs_le_between_inv in Ha. apply Rabs_le_between_inv in Hb.
  assert (Hk : 2 * (3 * u + eps + 2 * eta) * A
               + 2 * (3 * u + eps + 2 * eta) * B
               = 2 * (3 * u + eps + 2 * eta)).
  { rewrite <- Rmult_plus_distr_l, Hsum. ring. }
  apply Rabs_le. split; lra.
Qed.

(** With a symmetric rounding the two exponents are opposite. *)
Lemma exponent_of_swap (round : R -> R) (r1 r2 : R) :
  symmetric_rounding round ->
  exponent_of round r2 r1 = - exponent_of round r1 r2.
Proof.
  intros Hsym. unfold exponent_of.
  replace (r1 - r2) with (- (r2 - r1)) by ring.
  rewrite Hsym.
  replace (- round (r2 - r1) / 400) with (- (round (r2 - r1) / 400))
    by (unfold Rdiv; ring).
  apply Hsym.
Qed.

(** C3, amended.  Let the arithmetic be the exact one followed by a
    rounding that keeps the order, keeps 0, 1 and -1, treats opposites
    alike and commits a relative error of at most [u] (and an absolute
    one of at most [eta] near zero), with powers of ten of relative
    error at most [eps], as on binary floats.  For two players of the
    mapping [_expected_score] never changes the store.  When both powers
    of ten come out, both calls return and their values add up to 1
    within [6 * u + 2 * eps + 6 * eta]; otherwise at least one of the two
    calls raises an arithmetic exception. *)
Theorem C3_expected_scores_sum_within_tolerance
        (round : R -> R) (rt : runtime) (u eps eta : R)
        (a b : string) (ra rb : R) (self : Elo) :
  rounding round ->
  rounds_with round rt ->
  symmetric_rounding round ->
  accurate u eta round ->
  power_accurate eps eta rt ->
  0 <= u -> 0 <= eps -> 0 <= eta -> 2 * u + eps + 2 * eta <= 1 / 2 ->
  Dict.get a (players self) = Some ra ->
  Dict.get b (players self) = Some rb ->
  final (Machine._expected_score rt a b self) = self /\
  final (Machine._expected_score rt b a self) = self /\
  match num_pow rt 10 (exponent_of round ra rb),
        num_pow rt 10 (exponent_of round rb ra) with
  | Val _, Val _ =>
      exists ea eb : R,
        Machine._expected_score rt a b self = mkOut (Ok ea) self [] /\
        Machine._expected_score rt b a self = mkOut (Ok eb) self [] /\
        Rabs (ea + eb - 1) <= 6 * u + 2 * eps + 6 * eta
  | _, _ =>
      exists e : exn,
        arithmetic_error e /\
        (Machine._expected_score rt a b self = mkOut (Raise e) self [] \/
         Machine._expected_score rt b a self = mkOut (Raise e) self [])
  end.
Proof.
  intros Hround Hrt Hsym Hacc Hpow Hu Heps Heta Hsmall Ga Gb.
  rewrite (machine_expected_score_run rt _ _ _ _ _ Ga Gb).
  rewrite (machine_expected_score_run rt _ _ _ _ _ Gb Ga).
  cbn [final]. split; [reflexivity|]. split; [reflexivity|].
  pose proof (rounded_expected_value round rt ra rb Hround Hrt) as Hab.
  pose proof (rounded_expected_value round rt rb ra Hround Hrt) as Hba.
  pose proof (exponent_of_swap round ra rb Hsym) as Hswap.
  destruct (num_pow rt 10 (exponent_of round ra rb)) as [p| |] eqn:Ep.
  - destruct (num_pow rt 10 (exponent_of round rb ra)) as [q| |] eqn:Eq.
    + destruct Hab as [Hab _]. destruct Hba as [Hba _].
      rewrite Hab, Hba. cbn [arith_res].
      exists (round (1 / round (1 + p))), (round (1 / round (1 + q))).
      split; [reflexivity|]. split; [reflexivity|].
      destruct Hrt as (_ & _ & _ & _ & Hnonneg).
      assert (Hq : Rabs (q - Rpower 10 (- exponent_of round ra rb))
                   <= eps * Rpower 10 (- exponent_of round ra rb) + eta)
        by (rewrite <- Hswap; now apply Hpow).
      exact (expected_sum_tolerance round u eps eta
               (exponent_of round ra rb) p q Hacc Hu Heps Heta Hsmall
               (Hnonneg _ _ Ep) (Hpow _ _ Ep) (Hnonneg _ _ Eq) Hq).
    + rewrite Hba. exists OverflowError. split; [now left|]. now right.
    + rewrite Hba. exists ZeroDivisionError. split; [now right|]. now right.
  - rewrite Hab. exists OverflowError. split; [now left|]. now left.
  - rewrite Hab. exists ZeroDivisionError. split; [now right|]. now left.
Qed.

Lemma exact_accurate : accurate 0 0 (fun x => x).
Proof.
  intros x. replace (x - x) with 0 by ring. rewrite Rabs_R0. lra.
Qed.

Lemma exact_power_accurate (float : string -> option R) :
  power_accurate 0 0 (Machine.exact float).
Proof.
  intros x p H. cbn [num_pow Machine.exact] in H. injection H as <-.
  replace (Rpower 10 x - Rpower 10 x) with 0 by ring. rewrite Rabs_R0. lra.
Qed.

Lemma C3_sum_within_tolerance_witness :
  let self := Elo_init ["a"; "b"] 1500 32 in
  exists ea eb : R,
    Machine._expected_score (Machine.exact float_decimal) "a" "b" self
    = mkOut (Ok ea) self [] /\
    Machine._expected_score (Machine.exact float_decimal) "b" "a" self
    = mkOut (Ok eb) self [] /\
    Rabs (ea + eb - 1) <= 6 * 0 + 2 * 0 + 6 * 0.
Proof.
  cbv zeta.
  pose proof (C3_expected_scores_sum_within_tolerance
                (fun x => x) (Machine.exact float_decimal) 0 0 0
                "a" "b" 1500 1500 (Elo_init ["a"; "b"] 1500 32)
                exact_rounding (exact_rounds float_decimal)
                (fun x => eq_refl) exact_accurate
                (exact_power_accurate float_decimal)
                (Rle_refl 0) (Rle_refl 0) (Rle_refl 0)
                ltac:(lra) eq_refl eq_refl) as (_ & _ & H).
  cbn [num_pow Machine.exact] in H. exact H.
Defined.
